(** * bedrocktool: capture frames and their replay

    A shallow embedding of the packet capture writer
    ([subcommands/capture.go], [dumpPacket]) and of the replay connector
    (package [proxy]: [readPacket], [handleLoginSequence], [loop],
    [createReplayConnector], [Close], [DoSpawnContext], [ReadPacket]),
    with the properties of the capture format and of the replay session
    proved about them.

    Go values are modelled as follows: [int], [uint32], [int64] and
    [uint64] as [Z] with the conversions written out; [[]byte] as
    [list byte]; a possibly-nil slice as an [option]; [error] as
    [option error]; an [io.Writer] and an [io.Reader] as explicit states
    threaded through a small state monad; channels by their open/closed
    status. *)

From Stdlib Require Import String ZArith List Lia Bool Sorted Permutation Orders Mergesort.
From coqutil Require Import Byte Word.LittleEndianList.
Import ListNotations.
Local Open Scope Z_scope.

(** ** Go runtime pieces the code relies on *)

Module Go.

(** The error values that occur in the modelled code. *)
Inductive error : Type :=
| io_EOF
| io_ErrUnexpectedEOF
| io_ErrShortWrite
| net_ErrClosed
| fs_ErrNotExist
| zip_ErrFormat
| errors_New (msg : string).

(** [uint32(x)] on an [int]. *)
Definition uint32 (x : Z) : Z := x mod 2 ^ 32.

(** The [int64] read back from its 64-bit two's complement pattern. *)
Definition int64 (x : Z) : Z := (x + 2 ^ 63) mod 2 ^ 64 - 2 ^ 63.

(** A state monad, used for the writer and for the reader. *)
Definition State (S A : Type) : Type := S -> A * S.

Definition ret {S A} (a : A) : State S A := fun s => (a, s).

Definition bind {S A B} (m : State S A) (k : A -> State S B) : State S B :=
  fun s => let (a, s') := m s in k a s'.

Declare Scope go_scope.
Delimit Scope go_scope with go.
Notation "x <- m ;; k" := (bind m (fun x => k))
  (at level 61, m at next level, right associativity) : go_scope.
Notation "' p <- m ;; k" := (bind m (fun x => let p := x in k))
  (at level 61, p pattern, m at next level, right associativity) : go_scope.
Notation "m ;;; k" := (bind m (fun _ => k))
  (at level 61, right associativity) : go_scope.

(** *** [io.Writer]

    The stream holds the bytes [out] accepted so far.  [faults] scripts
    the coming calls of [Write] (here [io_Write]), one entry a call: [None] accepts the
    whole buffer, [Some k] accepts at most [k] bytes of it; once the
    script is used up every call accepts the whole buffer.  A call that
    accepts less than it was given returns a non-nil error, as the
    [io.Writer] contract demands. *)
Record Writer : Type := mkWriter { out : list byte; faults : list (option nat) }.

Definition io_Write (p : list byte) : State Writer (Z * option error) :=
  fun w =>
    match faults w with
    | [] => ((Z.of_nat (length p), None), mkWriter (out w ++ p) [])
    | None :: fs => ((Z.of_nat (length p), None), mkWriter (out w ++ p) fs)
    | Some k :: fs =>
        let n := Nat.min k (length p) in
        ((Z.of_nat n,
          if (n <? length p)%nat then Some io_ErrShortWrite else None),
         mkWriter (out w ++ firstn n p) fs)
    end.

Definition bool_byte (b : bool) : byte := if b then Byte.x01 else Byte.x00.

(** [binary.Write(w, binary.LittleEndian, v)] for the three types the
    capture writer passes: one call of [Write] with the encoded value. *)
Definition binary_Write_uint32 (v : Z) : State Writer (option error) :=
  (r <- io_Write (le_split 4 v) ;; ret (snd r))%go.

Definition binary_Write_bool (v : bool) : State Writer (option error) :=
  (r <- io_Write [bool_byte v] ;; ret (snd r))%go.

Definition binary_Write_int64 (v : Z) : State Writer (option error) :=
  (r <- io_Write (le_split 8 v) ;; ret (snd r))%go.

(** *** [io.Reader]

    The reader state is the list of bytes not yet consumed. *)
Definition Reader : Type := list byte.

(** [io.ReadFull(r, buf)] with [len(buf) = n]: the bytes put in [buf]
    and the error.  Nothing is read for an empty buffer; an exhausted
    stream gives [io.EOF]; a stream that ends before [n] bytes gives
    [io.ErrUnexpectedEOF] after consuming what was left. *)
Definition io_ReadFull (n : nat) : State Reader (list byte * option error) :=
  fun s =>
    match n, s with
    | O, _ => (([], None), s)
    | _, [] => (([], Some io_EOF), [])
    | _, _ =>
        if (length s <? n)%nat then ((s, Some io_ErrUnexpectedEOF), [])
        else ((firstn n s, None), skipn n s)
    end.

(** [binary.Read(r, binary.LittleEndian, &v)]: on an error [v] keeps the
    value [old] it had. *)
Definition binary_Read_uint32 (old : Z) : State Reader (Z * option error) :=
  ('(bs, err) <- io_ReadFull 4 ;;
   match err with
   | Some e => ret (old, Some e)
   | None => ret (le_combine bs, None)
   end)%go.

Definition binary_Read_bool (old : bool) : State Reader (bool * option error) :=
  ('(bs, err) <- io_ReadFull 1 ;;
   match err with
   | Some e => ret (old, Some e)
   | None => ret (negb (le_combine bs =? 0), None)
   end)%go.

Definition binary_Read_int64 (old : Z) : State Reader (Z * option error) :=
  ('(bs, err) <- io_ReadFull 8 ;;
   match err with
   | Some e => ret (old, Some e)
   | None => ret (int64 (le_combine bs), None)
   end)%go.

(** A channel that carries no value of interest, as used for signalling:
    all that matters is whether it has been closed. *)
Inductive chan : Type := Open | Closed.

(** [close(c)]: closing a closed channel panics ([None]). *)
Definition close_chan (c : chan) : option chan :=
  match c with
  | Open => Some Closed
  | Closed => None
  end.

End Go.

Import Go.
Local Open Scope go_scope.

(** ** The capture writer ([subcommands/capture.go]) *)

Module Capture.

Definition leading_magic : list byte := [Byte.xaa; Byte.xaa; Byte.xaa; Byte.xaa].
Definition trailing_magic : list byte := [Byte.xbb; Byte.xbb; Byte.xbb; Byte.xbb].

(** [dumpPacket(f, toServer, payload)], run while [time.Now().UnixMilli()]
    is [now].  The result is the error it logs, if any.  [dumpLock] is
    held for the whole body; the lock is modelled where producers run
    side by side, in [Producers] below. *)
Definition dumpPacket (now : Z) (toServer : bool) (payload : list byte)
  : State Writer (list error) :=
  io_Write leading_magic ;;;
  let packetSize := uint32 (Z.of_nat (length payload)) in
  binary_Write_uint32 packetSize ;;;
  binary_Write_bool toServer ;;;
  binary_Write_int64 now ;;;
  '(n, err) <- io_Write payload ;;
  let logged := match err with Some e => [e] | None => [] end in
  (if n <? packetSize
   then io_Write (repeat Byte.x00 (Z.to_nat (packetSize - n))) ;;; ret tt
   else ret tt) ;;;
  io_Write trailing_magic ;;;
  ret logged.

(** One call of the proxy's packet callback, as far as the capture file
    sees it: the clock reading, the direction and the bytes. *)
Record Call : Type := mkCall { at_ms : Z; toServer : bool; payload : list byte }.

(** The calls of a session, one after the other, on one stream. *)
Fixpoint dumpPackets (calls : list Call) : State Writer (list error) :=
  match calls with
  | [] => ret []
  | c :: rest =>
      l1 <- dumpPacket (at_ms c) (toServer c) (payload c) ;;
      l2 <- dumpPackets rest ;;
      ret (l1 ++ l2)
  end.

(** A stream that accepts everything, empty at first. *)
Definition fresh : Writer := mkWriter [] [].

(** The bytes of a whole capture written to a fresh, fault-free stream. *)
Definition capture (calls : list Call) : list byte :=
  out (snd (dumpPackets calls fresh)).

(** The frame as the format describes it:
    [[u32 magic][u32 payloadLength][u8 direction][i64 timestamp][payload][u32 magic]],
    little-endian. *)
Definition wire_frame (now : Z) (toServer : bool) (payload : list byte) : list byte :=
  le_split 4 0xAAAAAAAA ++ le_split 4 (Z.of_nat (length payload))
    ++ [bool_byte toServer] ++ le_split 8 now ++ payload ++ le_split 4 0xBBBBBBBB.

(** What a reader of the capture is to get back for a call. *)
Definition pair_of (c : Call) : bool * list byte := (toServer c, payload c).

(** The payload of the call is shorter than 2^32 bytes. *)
Definition fits_u32 (c : Call) : Prop := Z.of_nat (length (payload c)) < 2 ^ 32.

(** A payload of 2^32 zero bytes; it is never computed with, only its
    length is used. *)
Definition huge : list byte := repeat Byte.x00 (N.to_nat 4294967296).

End Capture.

(** ** The replay connector (package [proxy]) *)

Module Replay.

(** [replayMagic] is the byte string "BTCP". *)
Definition replayMagic : list byte := [Byte.x42; Byte.x54; Byte.x43; Byte.x50].

Definition currentReplayVersion : Z := 3.

(** [WriteReplayHeader(f)]: the magic, then the header struct, whose one
    field is the [int32] version. *)
Definition WriteReplayHeader : State Writer unit :=
  io_Write replayMagic ;;;
  io_Write (le_split 4 currentReplayVersion) ;;;
  ret tt.

(** *** Reading one frame *)

(** [readPacket]: the payload ([None] for a nil slice), the direction
    and the error.  [ver] is the field [r.ver]; the state is what is
    left of [r.packetF]. *)
Definition readPacket (ver : Z)
  : State Reader (option (list byte) * bool * option error) :=
  '(magic, err) <- binary_Read_uint32 0 ;;
  match err with
  | Some io_EOF => ret (None, false, None)
  | Some e => ret (None, false, Some e)
  | None =>
      if negb (magic =? 0xAAAAAAAA)
      then ret (None, false, Some (errors_New "wrong Magic"))
      else
        '(packetLength, _) <- binary_Read_uint32 0 ;;
        '(toServer, _) <- binary_Read_bool false ;;
        (if 2 <=? ver then binary_Read_int64 0 ;;; ret tt else ret tt) ;;;
        '(payload, err) <- io_ReadFull (Z.to_nat packetLength) ;;
        match err with
        | Some e => ret (None, toServer, Some e)
        | None =>
            if negb (Z.of_nat (length payload) =? packetLength)
            then ret (None, toServer, Some (errors_New "truncated"))
            else
              '(magic2, _) <- binary_Read_uint32 0 ;;
              if negb (magic2 =? 0xBBBBBBBB)
              then ret (None, toServer, Some (errors_New "wrong Magic2"))
              else ret (Some payload, toServer, None)
        end
  end.

(** The header of a frame: magic, declared length, direction byte and,
    from version 2 on, the eight bytes of the timestamp. *)
Definition frame_header (ver declared : Z) (d : byte) (time_field : list byte) : list byte :=
  Capture.leading_magic ++ le_split 4 declared ++ [d]
    ++ (if 2 <=? ver then time_field else []).

(** The frames that successive calls of [readPacket] hand to [loop], up
    to the call that returns a nil payload, with the error of that last
    call.  [None] when [fuel] calls were not enough. *)
Fixpoint read_frames_fuel (fuel : nat) (ver : Z) (s : Reader)
  : option (list (bool * list byte) * option error) :=
  match fuel with
  | O => None
  | S fuel' =>
      let '((payload, toServer, err), s') := readPacket ver s in
      match payload with
      | None => Some ([], err)
      | Some p =>
          match read_frames_fuel fuel' ver s' with
          | Some (frames, e) => Some ((toServer, p) :: frames, e)
          | None => None
          end
      end
  end.

(** Every frame read takes at least the four bytes of its magic off the
    stream, so one call more than there are bytes is enough. *)
Definition read_frames (ver : Z) (s : Reader)
  : option (list (bool * list byte) * option error) :=
  read_frames_fuel (S (length s)) ver s.

(** *** Packets and what the protocol library supplies *)

(** The decoded packets [handleLoginSequence] tells apart.  Of the
    fields of [StartGame] the model keeps three; the others are copied
    into the game data in the same way and no property here reads
    them.  The resource pack packets keep their content as bytes. *)
Inductive Packet : Type :=
| StartGame (WorldName : string) (EntityUniqueID EntityRuntimeID : Z)
| ResourcePacksInfo (content : list byte)
| ResourcePackDataInfo (content : list byte)
| ResourcePackChunkData (content : list byte)
| ResourcePackStack (content : list byte)
| SetLocalPlayerAsInitialised (EntityRuntimeID : Z)
| OtherPacket (id : Z) (content : list byte).

Record GameData : Type := mkGameData {
  WorldName : string;
  EntityUniqueID : Z;
  EntityRuntimeID : Z
}.

(** The zero value of [minecraft.GameData]. *)
Definition zero_GameData : GameData := mkGameData EmptyString 0 0.

(** [net.UDPAddr] with only the IP set. *)
Definition Addr : Type := (Z * Z * Z * Z)%type.
Definition LocalAddr : Addr := (1, 1, 1, 1).
Definition RemoteAddr : Addr := (2, 2, 2, 2).

(** A zip archive as [zip.Reader] presents it: its entries in order,
    each under the name by which [Open] finds it. *)
Definition zip_Reader : Type := list (string * list byte).

(** [z.Open(name)]: the content of the first entry of that name. *)
Fixpoint zip_Open (z : zip_Reader) (name : string) : list byte + error :=
  match z with
  | [] => inr fs_ErrNotExist
  | (n, content) :: rest =>
      if String.eqb n name then inl content else zip_Open rest name
  end.

(** What is used of code that is not part of these sources: the
    resource pack handler ([rpHandler], with its [replayCache]) and the
    packet decoding of the protocol library.  The handler's methods act
    on the handler's own state. *)
Class Deps : Type := {
  rpHandler : Type;
  NewRpHandler : rpHandler;
  replayCache_ReadFrom : zip_Reader -> State rpHandler (option error);
  OnResourcePacksInfo : list byte -> State rpHandler (option error);
  OnResourcePackDataInfo : list byte -> State rpHandler (option error);
  OnResourcePackChunkData : list byte -> State rpHandler (option error);
  OnResourcePackStack : list byte -> State rpHandler (option error);
  packetData : Type;
  minecraft_ParseData : list byte -> Addr -> Addr -> packetData + error;
  Decode : packetData -> list Packet + error
}.

Section Connector.
Context {deps : Deps}.

(** The fields of [replayConnector] the modelled methods use.
    [packetF] is what is left to read of the entry [packets.bin].
    [packets] is the status of the channel of that name and [sent]
    the packets sent on it so far, oldest first.  [login_seen] is a
    history kept for the statements only: the packets
    [handleLoginSequence] has been called with, oldest first; no
    definition reads it. *)
Record replayConnector : Type := mkConn {
  ver : Z;
  packetF : Reader;
  packets : chan;
  sent : list Packet;
  spawn : chan;
  close : chan;
  once : bool;
  gameData : GameData;
  resourcePackHandler : rpHandler;
  login_seen : list Packet
}.

Definition set_packetF (r : replayConnector) (s : Reader) :=
  mkConn (ver r) s (packets r) (sent r) (spawn r) (close r) (once r)
    (gameData r) (resourcePackHandler r) (login_seen r).

Definition SetGameData (r : replayConnector) (data : GameData) :=
  mkConn (ver r) (packetF r) (packets r) (sent r) (spawn r) (close r) (once r)
    data (resourcePackHandler r) (login_seen r).

Definition set_spawn (r : replayConnector) (c : chan) :=
  mkConn (ver r) (packetF r) (packets r) (sent r) c (close r) (once r)
    (gameData r) (resourcePackHandler r) (login_seen r).

Definition set_resourcePackHandler (r : replayConnector) (h : rpHandler) :=
  mkConn (ver r) (packetF r) (packets r) (sent r) (spawn r) (close r) (once r)
    (gameData r) h (login_seen r).

Definition note_login (r : replayConnector) (pk : Packet) :=
  mkConn (ver r) (packetF r) (packets r) (sent r) (spawn r) (close r) (once r)
    (gameData r) (resourcePackHandler r) (login_seen r ++ [pk]).

(** A method of the handler called through [r.resourcePackHandler]. *)
Definition with_handler (m : State rpHandler (option error))
  (r : replayConnector) : (bool * option error) * replayConnector :=
  let (err, h) := m (resourcePackHandler r) in
  ((false, err), set_resourcePackHandler r h).

Definition mismatch : error :=
  errors_New "entity runtime ID mismatch: entity runtime ID in StartGame and SetLocalPlayerAsInitialised packets should be equal".

(** [handleLoginSequence(pk)]; [None] is a panic. *)
Definition handleLoginSequence (pk : Packet) (r0 : replayConnector)
  : option ((bool * option error) * replayConnector) :=
  let r := note_login r0 pk in
  match pk with
  | StartGame name uid rid =>
      Some ((false, None), SetGameData r (mkGameData name uid rid))
  | ResourcePacksInfo c => Some (with_handler (OnResourcePacksInfo c) r)
  | ResourcePackDataInfo c => Some (with_handler (OnResourcePackDataInfo c) r)
  | ResourcePackChunkData c => Some (with_handler (OnResourcePackChunkData c) r)
  | ResourcePackStack c => Some (with_handler (OnResourcePackStack c) r)
  | SetLocalPlayerAsInitialised rid =>
      if negb (rid =? EntityRuntimeID (gameData r))
      then Some ((false, Some mismatch), r)
      else
        match close_chan (spawn r) with
        | Some c => Some ((true, None), set_spawn r c)
        | None => None
        end
  | OtherPacket _ _ => Some ((false, None), r)
  end.

(** [Close()]: the function given to [r.once.Do] runs on the first
    call only; [None] is a panic. *)
Definition Close (r : replayConnector) : option (option error * replayConnector) :=
  if once r then Some (None, r)
  else
    match close_chan (close r), close_chan (packets r) with
    | Some c, Some p =>
        Some (None,
              mkConn (ver r) (packetF r) p (sent r) (spawn r) c true
                (gameData r) (resourcePackHandler r) (login_seen r))
    | _, _ => None
    end.

(** [r.packets <- pk], with a consumer that takes the packet; sending
    on a closed channel panics.  The send with a consumer that does not
    take the packet is in [Consumer] below. *)
Definition send_packet (r : replayConnector) (pk : Packet) : option replayConnector :=
  match packets r with
  | Closed => None
  | Open =>
      Some (mkConn (ver r) (packetF r) (packets r) (sent r ++ [pk]) (spawn r)
              (close r) (once r) (gameData r) (resourcePackHandler r) (login_seen r))
  end.

(** How the body of a [for] loop is left. *)
Inductive flow : Type :=
| Next (r : replayConnector) (gameStarted : bool)
| Return (r : replayConnector) (logged : error)
| Panics.

(** The inner loop of [loop]: [for _, pk := range pks]. *)
Fixpoint range_pks (pks : list Packet) (r : replayConnector) (gameStarted : bool) : flow :=
  match pks with
  | [] => Next r gameStarted
  | pk :: rest =>
      if negb gameStarted then
        match handleLoginSequence pk r with
        | None => Panics
        | Some ((started, Some e), r') => Return r' e
        | Some ((started, None), r') => range_pks rest r' started
        end
      else
        match send_packet r pk with
        | None => Panics
        | Some r' => range_pks rest r' gameStarted
        end
  end.

(** How [loop] ends: it returns, after the deferred [Close], having
    logged [log]; or it panics; or the model ran out of fuel. *)
Inductive outcome : Type :=
| Returned (r : replayConnector) (log : list error)
| Panicked
| OutOfFuel.

Definition deferred_Close (r : replayConnector) (log : list error) : outcome :=
  match Close r with
  | Some (_, r') => Returned r' log
  | None => Panicked
  end.

Definition log_if (err : option error) : list error :=
  match err with Some e => [e] | None => [] end.

(** [loop()], one iteration of the outer [for] for each unit of fuel. *)
Fixpoint loop_fuel (fuel : nat) (r : replayConnector) (gameStarted : bool)
  (log : list error) : outcome :=
  match fuel with
  | O => OutOfFuel
  | S fuel' =>
      let '((payload, toServer, err), s') := readPacket (ver r) (packetF r) in
      let r := set_packetF r s' in
      let log := log ++ log_if err in
      match payload with
      | None => deferred_Close r log
      | Some p =>
          let '(src, dst) :=
            if toServer then (LocalAddr, RemoteAddr) else (RemoteAddr, LocalAddr) in
          match minecraft_ParseData p src dst with
          | inr e => deferred_Close r (log ++ [e])
          | inl pkData =>
              match Decode pkData with
              | inr e => loop_fuel fuel' r gameStarted (log ++ [e])
              | inl pks =>
                  match range_pks pks r gameStarted with
                  | Next r' started => loop_fuel fuel' r' started log
                  | Return r' e => deferred_Close r' (log ++ [e])
                  | Panics => Panicked
                  end
              end
          end
      end
  end.

(** [loop()] on a connector: as with [read_frames], one iteration more
    than there are bytes to read is always enough. *)
Definition loop (r : replayConnector) : outcome :=
  loop_fuel (S (length (packetF r))) r false [].

(** *** Opening a capture *)

(** A file that has been opened and whose [Stat] has succeeded, as far
    as opening it for replay can tell: the bytes it begins with and what
    [zip.NewReader] makes of it.  [OnDisk.opened] below makes such a file
    from the bytes on the disk. *)
Record File : Type := mkFile {
  leading : list byte;
  archive : zip_Reader + error
}.

(** The four bytes where a header magic would be. *)
Definition header_magic (f : File) : list byte := firstn 4 (leading f).

(** [os.Open]: the file of that name, if there is one. *)
Definition FileSystem : Type := string -> option File.

Definition os_Open (fsys : FileSystem) (filename : string) : File + error :=
  match fsys filename with
  | Some f => inl f
  | None => inr fs_ErrNotExist
  end.

(** [createReplayConnector(filename, packetFunc)]: the connector, on
    which [loop] is then started, or the error. *)
Definition createReplayConnector (fsys : FileSystem) (filename : string)
  : option replayConnector * option error :=
  match os_Open fsys filename with
  | inr e => (None, Some e)
  | inl f =>
      match archive f with
      | inr e => (None, Some e)
      | inl z =>
          match zip_Open z "version" with
          | inr e => (None, Some e)
          | inl vf =>
              let '(v, _) := fst (binary_Read_uint32 0 vf) in
              if negb (v =? 3) then (None, Some (errors_New "wrong version"))
              else
                let (err, h) := replayCache_ReadFrom z NewRpHandler in
                match err with
                | Some e => (None, Some e)
                | None =>
                    match zip_Open z "packets.bin" with
                    | inr e => (None, Some e)
                    | inl pf =>
                        (Some (mkConn v pf Open [] Open Open false
                                 zero_GameData h []), None)
                    end
                end
          end
      end
  end.

(** *** Waiting and reading

    A [select] is modelled by the results of its cases that are ready;
    Go takes one of them, and blocks while there is none. *)

(** [DoSpawnContext(ctx)], where [ctx_done] tells whether [ctx] is
    cancelled or timed out. *)
Definition DoSpawnContext (r : replayConnector) (ctx_done : bool)
  : list (option error) :=
  (match close r with Closed => [Some (errors_New "do spawn")] | Open => [] end)
  ++ (if ctx_done then [Some (errors_New "do spawn")] else [])
  ++ (match spawn r with Closed => [None] | Open => [] end).

(** [DoSpawn()] waits with [context.Background()], which is never done. *)
Definition DoSpawn (r : replayConnector) : list (option error) :=
  DoSpawnContext r false.

(** [ReadPacket()], where [offered] is the packet [loop] is sending on
    [r.packets] at that moment, if it is. *)
Definition ReadPacket (r : replayConnector) (offered : option Packet)
  : list (option Packet * option error) :=
  (match close r with Closed => [(None, Some net_ErrClosed)] | Open => [] end)
  ++ (match packets r with
      | Closed => [(None, Some net_ErrClosed)]
      | Open =>
          match offered with
          | Some p => [(Some p, None)]
          | None => []
          end
      end).

(** *** What the statements speak of *)

(** The version a container declares: the [uint32] that
    [createReplayConnector] reads from its entry [version], if it has
    one (zero when the entry is shorter than four bytes). *)
Definition declared_version (z : zip_Reader) : option Z :=
  match zip_Open z "version" with
  | inl vf => Some (fst (fst (binary_Read_uint32 0 vf)))
  | inr _ => None
  end.

(** The two channels [Close] closes are closed exactly when [once] is
    done: all that touches them is the function given to [once.Do]. *)
Definition once_guard (r : replayConnector) : Prop :=
  if once r
  then close r = Closed /\ packets r = Closed
  else close r = Open /\ packets r = Open.

(** The connectors there can be: made by [createReplayConnector], then
    acted on by the methods and by the statements of [loop]. *)
Inductive reachable : replayConnector -> Prop :=
| reach_open fsys filename r :
    createReplayConnector fsys filename = (Some r, None) -> reachable r
| reach_SetGameData r data :
    reachable r -> reachable (SetGameData r data)
| reach_read r s :
    reachable r -> reachable (set_packetF r s)
| reach_login r pk res r' :
    reachable r -> handleLoginSequence pk r = Some (res, r') -> reachable r'
| reach_send r pk r' :
    reachable r -> send_packet r pk = Some r' -> reachable r'
| reach_Close r err r' :
    reachable r -> Close r = Some (err, r') -> reachable r'.

(** [n] calls of [Close] in a row; [None] if one of them panics or
    returns an error. *)
Fixpoint Close_times (n : nat) (r : replayConnector) : option replayConnector :=
  match n with
  | O => Some r
  | S k =>
      match Close r with
      | Some (None, r') => Close_times k r'
      | _ => None
      end
  end.

(** The entity runtime id the game data holds after the packets [pks]:
    that of the last [StartGame] among them, zero if there is none. *)
Definition declared_id (pks : list Packet) : Z :=
  fold_left
    (fun id pk => match pk with StartGame _ _ rid => rid | _ => id end)
    pks 0.

Definition is_StartGame (pk : Packet) : bool :=
  match pk with StartGame _ _ _ => true | _ => false end.

Definition is_confirmation (pk : Packet) : bool :=
  match pk with SetLocalPlayerAsInitialised _ => true | _ => false end.

(** The login packets end with a confirmation that carries the id the
    game data holds at that point. *)
Definition confirmed (seen : list Packet) : Prop :=
  exists pre id,
    seen = pre ++ [SetLocalPlayerAsInitialised id] /\ id = declared_id pre.

(** The login packets end with a confirmation that carries another id. *)
Definition refused (seen : list Packet) : Prop :=
  exists pre id,
    seen = pre ++ [SetLocalPlayerAsInitialised id] /\ id <> declared_id pre.

(** A connector as [createReplayConnector] makes it, before [loop] has
    run. *)
Definition just_opened (r : replayConnector) : Prop :=
  packets r = Open /\ sent r = [] /\ spawn r = Open /\ close r = Open
  /\ once r = false /\ gameData r = zero_GameData /\ login_seen r = [].

(** What holds of the connector while [loop] runs with [gameStarted]
    as given, as long as nothing but [loop] acts on it. *)
Definition loop_inv (r : replayConnector) (gameStarted : bool) : Prop :=
  once r = false /\ close r = Open /\ packets r = Open
  /\ if gameStarted
     then spawn r = Closed /\ confirmed (login_seen r)
     else spawn r = Open /\ sent r = []
          /\ existsb is_confirmation (login_seen r) = false
          /\ EntityRuntimeID (gameData r) = declared_id (login_seen r).

(** What holds when the login sequence has failed with the errors [l]. *)
Definition stop_inv (r : replayConnector) (l : list error) : Prop :=
  once r = false /\ close r = Open /\ packets r = Open
  /\ spawn r = Open /\ sent r = []
  /\ ~ confirmed (login_seen r)
  /\ (refused (login_seen r) -> In mismatch l).

(** What holds when [loop] has returned, having logged [log]. *)
Definition loop_end (r : replayConnector) (log : list error) : Prop :=
  close r = Closed
  /\ ((spawn r = Closed /\ confirmed (login_seen r))
      \/ (spawn r = Open /\ sent r = [] /\ ~ confirmed (login_seen r)
          /\ (refused (login_seen r) -> In mismatch log))).

End Connector.

End Replay.

(** ** A stand-in for the library, to run the model on examples

    Handlers that never fail and keep no state, and a two-byte packet
    encoding: the packet id (0x0b for [StartGame], 0x71 for
    [SetLocalPlayerAsInitialised], as in the protocol) followed by the
    entity runtime id; any other payload is some other packet. *)

Module Demo.

Import Replay.

Definition parse (p : list byte) (src dst : Addr) : list Packet + error :=
  match p with
  | [id; rid] =>
      if byte.unsigned id =? 0x0b then inl [StartGame EmptyString 0 (byte.unsigned rid)]
      else if byte.unsigned id =? 0x71
           then inl [SetLocalPlayerAsInitialised (byte.unsigned rid)]
           else inl [OtherPacket (byte.unsigned id) [rid]]
  | [] => inr (errors_New "empty packet")
  | id :: content => inl [OtherPacket (byte.unsigned id) content]
  end.

#[local] Instance plain_deps : Deps := {
  rpHandler := unit;
  NewRpHandler := tt;
  replayCache_ReadFrom := fun _ => ret None;
  OnResourcePacksInfo := fun _ => ret None;
  OnResourcePackDataInfo := fun _ => ret None;
  OnResourcePackChunkData := fun _ => ret None;
  OnResourcePackStack := fun _ => ret None;
  packetData := list Packet;
  minecraft_ParseData := parse;
  Decode := fun pks => inl pks
}.

(** A zip archive starts with the signature of its first local file
    header, "PK\003\004". *)
Definition zip_signature : list byte := [Byte.x50; Byte.x4b; Byte.x03; Byte.x04].

(** A capture file: a zip archive with the entries [version] and
    [packets.bin]. *)
Definition capture_file (version : Z) (calls : list Capture.Call) : File :=
  mkFile zip_signature
    (inl [("version"%string, le_split 4 version);
          ("packets.bin"%string, Capture.capture calls)]).

(** The connector [createReplayConnector] makes for a capture of the
    current version with these calls. *)
Definition connector_on (calls : list Capture.Call) : replayConnector :=
  mkConn 3 (Capture.capture calls) Open [] Open Open false zero_GameData tt [].

(** A file system with that one file, under every name. *)
Definition disk (f : File) : FileSystem := fun _ => Some f.


(** A capture in which [StartGame] declares entity runtime id 7 and the
    confirmation carries 8, followed by one more packet. *)
Definition mismatched_login : File :=
  capture_file 3 [Capture.mkCall 0 false [Byte.x0b; Byte.x07];
                  Capture.mkCall 1 true [Byte.x71; Byte.x08];
                  Capture.mkCall 2 false [Byte.x09; Byte.x01]].

(** A capture in which the confirmation carries the declared id 7. *)
Definition matched_login : File :=
  capture_file 3 [Capture.mkCall 0 false [Byte.x0b; Byte.x07];
                  Capture.mkCall 1 true [Byte.x71; Byte.x07];
                  Capture.mkCall 2 false [Byte.x09; Byte.x01]].

(** The file that [WriteReplayHeader] starts: it begins with
    [replayMagic], and it is not a zip archive. *)
Definition raw_capture : File :=
  mkFile (out (snd (WriteReplayHeader Capture.fresh))) (inr zip_ErrFormat).

(** Open the file and run [loop]: what is logged, what has been sent on
    to the consumer, the status of the spawn channel, and the results a
    [DoSpawn] can have afterwards. *)
Definition replay (f : File)
  : option (list error * list Packet * chan * list (option error)) :=
  match createReplayConnector (disk f) "capture.zip" with
  | (Some r0, None) =>
      match loop r0 with
      | Returned r log => Some (log, sent r, spawn r, DoSpawn r)
      | _ => None
      end
  | _ => None
  end.

(** The calls of [matched_login], and the connector when [loop] has
    returned from replaying them. *)
Definition matched_calls : list Capture.Call :=
  [Capture.mkCall 0 false [Byte.x0b; Byte.x07];
   Capture.mkCall 1 true [Byte.x71; Byte.x07];
   Capture.mkCall 2 false [Byte.x09; Byte.x01]].

Definition matched_end : replayConnector :=
  Eval vm_compute in
    match loop (connector_on matched_calls) with
    | Returned r _ => r
    | _ => connector_on []
    end.

End Demo.

(** ** Producers sharing one capture stream

    The proxy calls its packet callback, and so [dumpPacket], from the
    goroutine of either direction.  Here each producer has the calls it
    is going to make, and a scheduler picks who moves next; a move is one
    statement of [dumpPacket], so that the writes of different producers
    can only be kept apart by [dumpLock]. *)

Module Producers.

Import Capture.

(** The statement of [dumpPacket] a producer is about to run; [Idle] is
    outside a call, in front of [dumpLock.Lock()].  [AtPadding] holds
    the local [n]. *)
Inductive Pc : Type :=
| Idle
| AtMagic
| AtSize
| AtDirection
| AtTime
| AtPayload
| AtPadding (n : Z)
| AtTrailer
| AtUnlock.

Record Producer : Type := mkProducer {
  pc : Pc;
  todo : list (bool * list byte)
}.

Record System : Type := mkSystem {
  stream : Writer;
  dumpLock : bool;
  producers : list Producer
}.

(** One statement of a producer, when the clock reads [now].  [None]:
    the producer cannot move, because it has no call left or because it
    waits for the lock. *)
Definition step_producer (now : Z) (p : Producer) (f : Writer) (locked : bool)
  : option (Producer * Writer * bool) :=
  match todo p with
  | [] => None
  | (toServer, payload) :: rest =>
      let packetSize := uint32 (Z.of_nat (length payload)) in
      let at_ (l : Pc) := mkProducer l (todo p) in
      match pc p with
      | Idle => if locked then None else Some (at_ AtMagic, f, true)
      | AtMagic => Some (at_ AtSize, snd (io_Write leading_magic f), locked)
      | AtSize => Some (at_ AtDirection, snd (binary_Write_uint32 packetSize f), locked)
      | AtDirection => Some (at_ AtTime, snd (binary_Write_bool toServer f), locked)
      | AtTime => Some (at_ AtPayload, snd (binary_Write_int64 now f), locked)
      | AtPayload =>
          let '((n, _), f') := io_Write payload f in
          Some (at_ (AtPadding n), f', locked)
      | AtPadding n =>
          if n <? packetSize
          then Some (at_ AtTrailer,
                     snd (io_Write (repeat Byte.x00 (Z.to_nat (packetSize - n))) f),
                     locked)
          else Some (at_ AtTrailer, f, locked)
      | AtTrailer => Some (at_ AtUnlock, snd (io_Write trailing_magic f), locked)
      | AtUnlock => Some (mkProducer Idle rest, f, false)
      end
  end.

(** [l] with its [i]-th element replaced. *)
Fixpoint replace_nth {A} (i : nat) (x : A) (l : list A) : list A :=
  match l, i with
  | [], _ => []
  | _ :: t, O => x :: t
  | h :: t, S j => h :: replace_nth j x t
  end.

(** Producer [i] runs one statement. *)
Definition step (i : nat) (now : Z) (s : System) : option System :=
  match nth_error (producers s) i with
  | None => None
  | Some p =>
      match step_producer now p (stream s) (dumpLock s) with
      | None => None
      | Some (p', f', locked') =>
          Some (mkSystem f' locked' (replace_nth i p' (producers s)))
      end
  end.

(** A schedule: who moves, and what the clock reads then. *)
Fixpoint run (schedule : list (nat * Z)) (s : System) : option System :=
  match schedule with
  | [] => Some s
  | (i, now) :: rest =>
      match step i now s with
      | Some s' => run rest s'
      | None => None
      end
  end.

(** The producers before their first call, on a fresh stream. *)
Definition start (programs : list (list (bool * list byte))) : System :=
  mkSystem fresh false (map (mkProducer Idle) programs).

Definition finished_producer (p : Producer) : bool :=
  match pc p, todo p with
  | Idle, [] => true
  | _, _ => false
  end.

(** Every producer has made all its calls. *)
Definition finished (s : System) : bool := forallb finished_producer (producers s).

(** The calls of producer [i] among calls tagged with their producer. *)
Definition calls_of (i : nat) (order : list (nat * Call)) : list (bool * list byte) :=
  map (fun x => (toServer (snd x), payload (snd x)))
    (filter (fun x => Nat.eqb (fst x) i) order).

(** The schedule in which producer [i] runs one whole call on its own,
    the clock reading [now] throughout: nine statements. *)
Definition solo (i : nat) (now : Z) : list (nat * Z) := repeat (i, now) 9.

(** The bytes of its call that a producer at [l] has put on a stream
    that accepts every write, [now] being the clock reading it wrote. *)
Definition written_at (l : Pc) (now : Z) (c : bool * list byte) : list byte :=
  let size := le_split 4 (Z.of_nat (length (snd c))) in
  let direction := [bool_byte (fst c)] in
  match l with
  | Idle | AtMagic => []
  | AtSize => leading_magic
  | AtDirection => leading_magic ++ size
  | AtTime => leading_magic ++ size ++ direction
  | AtPayload => leading_magic ++ size ++ direction ++ le_split 8 now
  | AtPadding _ | AtTrailer =>
      leading_magic ++ size ++ direction ++ le_split 8 now ++ snd c
  | AtUnlock =>
      leading_magic ++ size ++ direction ++ le_split 8 now ++ snd c ++ trailing_magic
  end.

(** The local [n] of a producer behind the payload write is the length
    of the payload. *)
Definition padding_ok (l : Pc) (c : bool * list byte) : Prop :=
  match l with
  | AtPadding n => n = Z.of_nat (length (snd c))
  | _ => True
  end.

(** What [dumpLock] keeps true of the producers of [programs] on a fresh
    stream.  [order] lists the calls that are over, oldest first, each
    with its producer and the clock reading it wrote. *)
Definition lock_inv (programs : list (list (bool * list byte))) (s : System)
  (order : list (nat * Call)) : Prop :=
  faults (stream s) = []
  /\ length (producers s) = length programs
  /\ (forall i p, nth_error (producers s) i = Some p ->
                  nth_error programs i = Some (calls_of i order ++ todo p))
  /\ (forall x, In x order -> (fst x < length programs)%nat)
  /\ if dumpLock s
     then exists i p now c rest,
            nth_error (producers s) i = Some p
            /\ todo p = c :: rest
            /\ pc p <> Idle
            /\ padding_ok (pc p) c
            /\ out (stream s) = capture (map snd order) ++ written_at (pc p) now c
            /\ (forall j q, j <> i -> nth_error (producers s) j = Some q -> pc q = Idle)
     else out (stream s) = capture (map snd order)
          /\ (forall j q, nth_error (producers s) j = Some q -> pc q = Idle).

(** Two producers with two calls each, and a schedule in which the
    second makes both its calls between the two calls of the first. *)
Definition two_by_two : list (list (bool * list byte)) :=
  [[(true, [Byte.x01]); (false, [])];
   [(false, [Byte.x02; Byte.x03]); (true, [Byte.x04])]].

Definition two_by_two_schedule : list (nat * Z) :=
  solo 0 10 ++ solo 1 20 ++ solo 1 30 ++ solo 0 40.

Definition two_by_two_end : System :=
  Eval vm_compute in
    match run two_by_two_schedule (start two_by_two) with
    | Some s => s
    | None => start two_by_two
    end.

(** The same producers when the first has run five statements of its
    first call. *)
Definition two_by_two_mid_schedule : list (nat * Z) := firstn 5 (solo 0 10).

Definition two_by_two_mid : System :=
  Eval vm_compute in
    match run two_by_two_mid_schedule (start two_by_two) with
    | Some s => s
    | None => start two_by_two
    end.

End Producers.

(** ** The packets of a log, for the statements about [loop] *)

Module Log.

Import Replay.

Section WithDeps.
Context {deps : Deps}.

(** The packets [loop] meets in the log, in order: frame after frame up
    to the end of the log, a frame that cannot be read or one that
    [minecraft.ParseData] refuses; a frame that [Decode] refuses
    contributes nothing. *)
Fixpoint decoded_fuel (fuel : nat) (ver : Z) (s : Reader) : list Packet :=
  match fuel with
  | O => []
  | S fuel' =>
      let '((payload, toServer, _), s') := readPacket ver s in
      match payload with
      | None => []
      | Some p =>
          let '(src, dst) :=
            if toServer then (LocalAddr, RemoteAddr) else (RemoteAddr, LocalAddr) in
          match minecraft_ParseData p src dst with
          | inr _ => []
          | inl pkData =>
              match Decode pkData with
              | inr _ => decoded_fuel fuel' ver s'
              | inl pks => pks ++ decoded_fuel fuel' ver s'
              end
          end
      end
  end.

Definition decoded (ver : Z) (s : Reader) : list Packet :=
  decoded_fuel (S (length s)) ver s.

(** The game data after the login packets [pks]: the fields of the last
    [StartGame] among them, the zero value if there is none. *)
Definition game_data_of (pks : list Packet) : GameData :=
  fold_left
    (fun data pk =>
       match pk with
       | StartGame name uid rid => mkGameData name uid rid
       | _ => data
       end)
    pks zero_GameData.



End WithDeps.

End Log.

(** ** Opening a capture, from the file name on *)

Module OnDisk.

Import Replay.

(** What there is under a file name: the bytes of the file, and what
    [Stat] on the open file returns, its size or an error. *)
Record DiskFile : Type := mkDiskFile { bytes : list byte; stat : Z + error }.

(** [os.Open]: the file, or the error. *)
Definition Disk : Type := string -> DiskFile + error.

Section WithZip.
Context {deps : Deps}.

(** [zip.NewReader(r.f, size)] of the standard library, on the bytes of
    the open file. *)
Variable zip_NewReader : list byte -> Z -> zip_Reader + error.

(** The open file as [createReplayConnector] goes on with it when
    [Stat] has given [size]: the archive is the one read from its
    bytes. *)
Definition opened (d : DiskFile) (size : Z) : File :=
  mkFile (bytes d) (zip_NewReader (bytes d) size).

(** [createReplayConnector(filename, packetFunc)] from [os.Open] on.
    The error of [Stat] is dropped and [s.Size()] is called on what it
    returned: [None] is the panic of that call when [Stat] has failed
    and [s] is nil. *)
Definition createReplayConnector_on (disk : Disk) (filename : string)
  : option (option replayConnector * option error) :=
  match disk filename with
  | inr e => Some (None, Some e)
  | inl d =>
      match stat d with
      | inr _ => None
      | inl size =>
          Some (createReplayConnector (fun _ => Some (opened d size)) filename)
      end
  end.

End WithZip.

End OnDisk.

(** ** One archive, to open

    The bytes of a zip archive with two stored entries: [version], the
    four bytes 03 00 00 00, and [packets.bin], empty.  The stand-in for
    [zip.NewReader] knows this archive and no other. *)

Module DemoDisk.

Import Replay.

Definition tiny_zip : list byte :=
  [
     Byte.x50; Byte.x4b; Byte.x03; Byte.x04; Byte.x14; Byte.x00; Byte.x00; Byte.x00;
     Byte.x00; Byte.x00; Byte.x00; Byte.x00; Byte.x21; Byte.x00; Byte.xf2; Byte.x70;
     Byte.xf1; Byte.x33; Byte.x04; Byte.x00; Byte.x00; Byte.x00; Byte.x04; Byte.x00;
     Byte.x00; Byte.x00; Byte.x07; Byte.x00; Byte.x00; Byte.x00; Byte.x76; Byte.x65;
     Byte.x72; Byte.x73; Byte.x69; Byte.x6f; Byte.x6e; Byte.x03; Byte.x00; Byte.x00;
     Byte.x00; Byte.x50; Byte.x4b; Byte.x03; Byte.x04; Byte.x14; Byte.x00; Byte.x00;
     Byte.x00; Byte.x00; Byte.x00; Byte.x00; Byte.x00; Byte.x21; Byte.x00; Byte.x00;
     Byte.x00; Byte.x00; Byte.x00; Byte.x00; Byte.x00; Byte.x00; Byte.x00; Byte.x00;
     Byte.x00; Byte.x00; Byte.x00; Byte.x0b; Byte.x00; Byte.x00; Byte.x00; Byte.x70;
     Byte.x61; Byte.x63; Byte.x6b; Byte.x65; Byte.x74; Byte.x73; Byte.x2e; Byte.x62;
     Byte.x69; Byte.x6e; Byte.x50; Byte.x4b; Byte.x01; Byte.x02; Byte.x14; Byte.x00;
     Byte.x14; Byte.x00; Byte.x00; Byte.x00; Byte.x00; Byte.x00; Byte.x00; Byte.x00;
     Byte.x21; Byte.x00; Byte.xf2; Byte.x70; Byte.xf1; Byte.x33; Byte.x04; Byte.x00;
     Byte.x00; Byte.x00; Byte.x04; Byte.x00; Byte.x00; Byte.x00; Byte.x07; Byte.x00;
     Byte.x00; Byte.x00; Byte.x00; Byte.x00; Byte.x00; Byte.x00; Byte.x00; Byte.x00;
     Byte.x00; Byte.x00; Byte.x80; Byte.x01; Byte.x00; Byte.x00; Byte.x00; Byte.x00;
     Byte.x76; Byte.x65; Byte.x72; Byte.x73; Byte.x69; Byte.x6f; Byte.x6e; Byte.x50;
     Byte.x4b; Byte.x01; Byte.x02; Byte.x14; Byte.x00; Byte.x14; Byte.x00; Byte.x00;
     Byte.x00; Byte.x00; Byte.x00; Byte.x00; Byte.x00; Byte.x21; Byte.x00; Byte.x00;
     Byte.x00; Byte.x00; Byte.x00; Byte.x00; Byte.x00; Byte.x00; Byte.x00; Byte.x00;
     Byte.x00; Byte.x00; Byte.x00; Byte.x0b; Byte.x00; Byte.x00; Byte.x00; Byte.x00;
     Byte.x00; Byte.x00; Byte.x00; Byte.x00; Byte.x00; Byte.x00; Byte.x00; Byte.x80;
     Byte.x01; Byte.x29; Byte.x00; Byte.x00; Byte.x00; Byte.x70; Byte.x61; Byte.x63;
     Byte.x6b; Byte.x65; Byte.x74; Byte.x73; Byte.x2e; Byte.x62; Byte.x69; Byte.x6e;
     Byte.x50; Byte.x4b; Byte.x05; Byte.x06; Byte.x00; Byte.x00; Byte.x00; Byte.x00;
     Byte.x02; Byte.x00; Byte.x02; Byte.x00; Byte.x6e; Byte.x00; Byte.x00; Byte.x00;
     Byte.x52; Byte.x00; Byte.x00; Byte.x00; Byte.x00; Byte.x00].

Fixpoint bytes_eqb (a b : list byte) : bool :=
  match a, b with
  | [], [] => true
  | x :: a', y :: b' => Byte.eqb x y && bytes_eqb a' b'
  | _, _ => false
  end.

Definition zip_NewReader (bs : list byte) (size : Z) : zip_Reader + error :=
  if bytes_eqb bs tiny_zip && (size =? 214)
  then inl [("version"%string, [Byte.x03; Byte.x00; Byte.x00; Byte.x00]);
            ("packets.bin"%string, [])]
  else inr zip_ErrFormat.

(** A disk with that archive under every name. *)
Definition disk : OnDisk.Disk := fun _ => inl (OnDisk.mkDiskFile tiny_zip (inl 214)).

End DemoDisk.

(** ** [loop] and its consumer

    The channel [r.packets] is unbuffered: the send [r.packets <- pk]
    waits until a [ReadPacket] receives.  Here the consumer of the
    connection receives [takes] packets and then no more, and does
    nothing else to the connector. *)

Module Consumer.

Import Replay.

Section WithDeps.
Context {deps : Deps}.

(** How the body of the inner [for] loop is left: as in [flow], with the
    number of packets the consumer still takes, or waiting in the send
    of [pk]. *)
Inductive flow_taking : Type :=
| TNext (r : replayConnector) (gameStarted : bool) (takes : nat)
| TReturn (r : replayConnector) (logged : error)
| TPanics
| TWaits (r : replayConnector) (pk : Packet).

(** The inner loop of [loop]: [for _, pk := range pks].  A send on the
    closed channel panics; on the open channel it goes through when the
    consumer takes the packet and waits for ever when it does not. *)
Fixpoint range_pks_taking (pks : list Packet) (r : replayConnector)
  (gameStarted : bool) (takes : nat) : flow_taking :=
  match pks with
  | [] => TNext r gameStarted takes
  | pk :: rest =>
      if negb gameStarted then
        match handleLoginSequence pk r with
        | None => TPanics
        | Some ((started, Some e), r') => TReturn r' e
        | Some ((started, None), r') => range_pks_taking rest r' started takes
        end
      else
        match send_packet r pk, takes with
        | None, _ => TPanics
        | Some _, O => TWaits r pk
        | Some r', S k => range_pks_taking rest r' gameStarted k
        end
  end.

(** How [loop] ends: as in [outcome], or blocked in the send of [pk],
    the deferred [Close] not run. *)
Inductive ending : Type :=
| Over (o : outcome)
| Blocked (r : replayConnector) (pk : Packet).

(** [loop()], one iteration of the outer [for] for each unit of fuel. *)
Fixpoint loop_fuel_taking (fuel : nat) (r : replayConnector) (gameStarted : bool)
  (log : list error) (takes : nat) : ending :=
  match fuel with
  | O => Over OutOfFuel
  | S fuel' =>
      let '((payload, toServer, err), s') := readPacket (ver r) (packetF r) in
      let r := set_packetF r s' in
      let log := log ++ log_if err in
      match payload with
      | None => Over (deferred_Close r log)
      | Some p =>
          let '(src, dst) :=
            if toServer then (LocalAddr, RemoteAddr) else (RemoteAddr, LocalAddr) in
          match minecraft_ParseData p src dst with
          | inr e => Over (deferred_Close r (log ++ [e]))
          | inl pkData =>
              match Decode pkData with
              | inr e => loop_fuel_taking fuel' r gameStarted (log ++ [e]) takes
              | inl pks =>
                  match range_pks_taking pks r gameStarted takes with
                  | TNext r' started takes' =>
                      loop_fuel_taking fuel' r' started log takes'
                  | TReturn r' e => Over (deferred_Close r' (log ++ [e]))
                  | TPanics => Over Panicked
                  | TWaits r' pk => Blocked r' pk
                  end
              end
          end
      end
  end.

Definition loop_taking (takes : nat) (r : replayConnector) : ending :=
  loop_fuel_taking (S (length (packetF r))) r false [] takes.

End WithDeps.

End Consumer.

(** ** The capture command ([CaptureCMD.Execute]) *)

Module CaptureCmd.

Import Capture Replay.

(** A packet the proxy passes to the callback: when, the bytes that
    [header.Write] puts into the buffer, the payload, and [src.String()]. *)
Record Intercepted : Type := mkIntercepted {
  seen_at : Z;
  header : list byte;
  body : list byte;
  src : string
}.

(** The callback that [Execute] installs as [proxy.PacketFunc]; [client]
    is [proxy.Client.LocalAddr().String()]. *)
Definition PacketFunc (client : string) (i : Intercepted) : State Writer (list error) :=
  let IsfromClient := String.eqb (src i) client in
  dumpPacket (seen_at i) IsfromClient (header i ++ body i).

Fixpoint PacketFuncs (client : string) (pkts : list Intercepted)
  : State Writer (list error) :=
  match pkts with
  | [] => ret []
  | i :: rest =>
      l1 <- PacketFunc client i ;;
      l2 <- PacketFuncs client rest ;;
      ret (l1 ++ l2)
  end.

(** What [Execute] writes to the file it has created: the replay header,
    then what the callback writes for the packets of the session.
    [Execute] calls the header writer as [utils.WriteReplayHeader]; it is
    taken to be the [WriteReplayHeader] of the source, which has it in
    package [proxy]. *)
Definition session (client : string) (pkts : list Intercepted) : State Writer (list error) :=
  WriteReplayHeader ;;; PacketFuncs client pkts.

(** The call of [dumpPacket] the callback makes for a packet. *)
Definition call_of (client : string) (i : Intercepted) : Call :=
  mkCall (seen_at i) (String.eqb (src i) client) (header i ++ body i).

End CaptureCmd.

(** ** Resource packs ([Packb]) *)

Module StringOrder.
Definition t : Type := string.
Definition leb : string -> string -> bool := String.leb.
Lemma leb_total (s1 s2 : string) : leb s1 s2 = true \/ leb s2 s1 = true.
Proof. apply String.leb_total. Qed.
End StringOrder.

Module StringSort := Sort StringOrder.

Module Packs.

(** [resource.Pack] of the protocol library, as far as [Packb] uses it:
    the bytes of the archive, held in a [bytes.Reader], and whether it
    is encrypted. *)
Record Pack : Type := mkPack { content : list byte; encrypted : bool }.

(** [pack.Len()]. *)
Definition Len (p : Pack) : nat := length (content p).

(** [pack.ReadAt(b, off)] with [len(b) = n], which is
    [bytes.Reader.ReadAt]: the bytes copied to the front of [b], and the
    error. *)
Definition ReadAt (p : Pack) (n : nat) (off : Z) : list byte * option error :=
  if off <? 0 then ([], Some (errors_New "bytes.Reader.ReadAt: negative offset"))
  else if Z.of_nat (length (content p)) <=? off then ([], Some io_EOF)
  else
    let data := firstn n (skipn (Z.to_nat off) (content p)) in
    (data, if (length data <? n)%nat then Some io_EOF else None).

Record Packb : Type := mkPackb { base : Pack; d : bool }.

(** The [for] loop of [ReadAll], [buf] and [off] as they stand; [None]
    when [fuel] turns were not enough. *)
Fixpoint ReadAll_from (fuel : nat) (p : Packb) (buf : list byte) (off : nat)
  : option (option (list byte) * option error) :=
  match fuel with
  | O => None
  | S fuel' =>
      let '(data, err) := ReadAt (base p) (length buf - off) (Z.of_nat off) in
      let buf := firstn off buf ++ data ++ skipn (off + length data) buf in
      match err with
      | Some io_EOF => Some (Some buf, None)
      | Some e => Some (None, Some e)
      | None => ReadAll_from fuel' p buf (off + length data)
      end
  end.

(** [ReadAll()]: the buffer of [Len()] zero bytes is filled from offset
    zero on. *)
Definition ReadAll (fuel : nat) (p : Packb) : option (option (list byte) * option error) :=
  ReadAll_from fuel p (repeat Byte.x00 (Len (base p))) 0.

Definition CanDecrypt (p : Packb) : bool := false.

Definition SetD (p : Packb) : Packb := mkPackb (base p) true.

(** What [zip.NewReader] returns: no reader and an error, or a reader --
    here the entries of its [File], each with its name and whether it is
    a directory -- and possibly an error all the same. *)
Inductive zip_result : Type :=
| zip_failed (e : error)
| zip_reader (files : list (string * bool)) (e : option error).

Section WithZip.
Variable zip_NewReader : list byte -> nat -> zip_result.

(** [FS()]: the reader, the names and the error; [None] is the panic of
    reading [r.File] through the nil reader. *)
Definition FS (p : Packb)
  : option (option (list (string * bool)) * list string * option error) :=
  if encrypted (base p) && negb (d p)
  then Some (None, [], Some (errors_New "encrypted"))
  else
    match zip_NewReader (content (base p)) (Len (base p)) with
    | zip_failed _ => None
    | zip_reader files err =>
        let names := map fst (filter (fun f => negb (snd f)) files) in
        Some (Some files, StringSort.sort names, err)
    end.

End WithZip.

(** A value of the interface [Pack], by what its methods return. *)
Record PackI : Type := mkPackI {
  Encrypted : bool;
  PackI_CanDecrypt : bool;
  Decrypt : list byte + error;
  Base : Pack
}.

(** [&Packb{pack}] as such a value, in the version of the file that has
    [Decrypt]. *)
Definition of_Packb (pack : Pack) : PackI :=
  mkPackI (encrypted pack) false (inr (errors_New "no_decrypt")) pack.

Section WithPackFromBase.
Variable PackFromBase : Pack -> PackI.
Variable resource_FromBytes : list byte -> Pack + error.

(** [GetPacks(server)] of that version, on [server.ResourcePacks()]. *)
Fixpoint GetPacks_from (acc : list PackI) (packs : list Pack)
  : list PackI * option error :=
  match packs with
  | [] => (acc, None)
  | pack :: rest =>
      let pack := PackFromBase pack in
      if Encrypted pack && PackI_CanDecrypt pack then
        match Decrypt pack with
        | inr e => ([], Some e)
        | inl data =>
            match resource_FromBytes data with
            | inr e => ([], Some e)
            | inl pack2 => GetPacks_from (acc ++ [of_Packb pack2]) rest
            end
        end
      else GetPacks_from (acc ++ [pack]) rest
  end.

Definition GetPacks (packs : list Pack) : list PackI * option error :=
  GetPacks_from [] packs.

End WithPackFromBase.

End Packs.

(** ** The command [create-customdata] *)

Module CustomData.

(** [CreateCustomDataCMD.Execute]: the exit status.  [created] is the
    error of [os.Create], [marshal] what [json.MarshalIndent] returns;
    the state is the file, which only exists when it was created. *)
Definition Execute (created : option error) (marshal : list byte * option error)
  : State Writer Z :=
  match created with
  | None =>
      let '(bdata, err) := marshal in
      io_Write bdata ;;;
      match err with
      | Some _ => ret 1
      | None => ret 0
      end
  | Some _ => ret 1
  end.

End CustomData.

(** * Properties *)

Import Capture.

(** ** The writer *)

Section WriterFacts.

Lemma uint32_small x : 0 <= x < 2 ^ 32 -> uint32 x = x.
Proof. intros H. unfold uint32. apply Z.mod_small. exact H. Qed.

Lemma uint32_le x : 0 <= x -> uint32 x <= x.
Proof. intros H. unfold uint32. apply Z.mod_le; lia. Qed.

Lemma le_split_uint32 x : le_split 4 (uint32 x) = le_split 4 x.
Proof. unfold uint32. symmetry. apply (le_split_mod x 4). Qed.

Lemma io_Write_whole p o :
  io_Write p (mkWriter o []) = ((Z.of_nat (length p), None), mkWriter (o ++ p) []).
Proof. reflexivity. Qed.

(** On a stream without faults [dumpPacket] logs nothing and appends
    the frame of the format. *)
Lemma dumpPacket_whole now d p o :
  dumpPacket now d p (mkWriter o []) = ([], mkWriter (o ++ wire_frame now d p) []).
Proof.
  unfold dumpPacket, binary_Write_uint32, binary_Write_bool, binary_Write_int64,
    bind, ret.
  rewrite !io_Write_whole. cbn [snd].
  pose proof (uint32_le (Z.of_nat (length p)) (Nat2Z.is_nonneg _)) as Hle.
  destruct (Z.ltb_spec (Z.of_nat (length p)) (uint32 (Z.of_nat (length p)))) as [Hlt | _];
    [lia |].
  rewrite io_Write_whole, le_split_uint32.
  unfold wire_frame. rewrite <- !app_assoc. reflexivity.
Qed.

Lemma dumpPackets_whole calls : forall o,
  dumpPackets calls (mkWriter o []) =
    ([], mkWriter (o ++ concat (map (fun c => wire_frame (at_ms c) (toServer c) (payload c)) calls)) []).
Proof.
  induction calls as [| c rest IH]; intros o; cbn [dumpPackets map concat].
  - unfold ret. rewrite app_nil_r. reflexivity.
  - unfold bind at 1. rewrite dumpPacket_whole.
    unfold bind at 1. rewrite IH. unfold ret. rewrite <- app_assoc. reflexivity.
Qed.

Lemma capture_frames calls :
  capture calls = concat (map (fun c => wire_frame (at_ms c) (toServer c) (payload c)) calls).
Proof. unfold capture, fresh. rewrite dumpPackets_whole. reflexivity. Qed.

Lemma capture_cons c rest :
  capture (c :: rest) = wire_frame (at_ms c) (toServer c) (payload c) ++ capture rest.
Proof. rewrite !capture_frames. reflexivity. Qed.

Lemma capture_one now d p : capture [mkCall now d p] = wire_frame now d p.
Proof. rewrite capture_frames. cbn [map concat at_ms toServer payload]. apply app_nil_r. Qed.

Lemma capture_app l1 l2 : capture (l1 ++ l2) = capture l1 ++ capture l2.
Proof. rewrite !capture_frames, map_app, concat_app. reflexivity. Qed.

End WriterFacts.

Lemma huge_length : Z.of_nat (length huge) = 4294967296.
Proof. unfold huge. rewrite repeat_length. lia. Qed.

Lemma int64_le_split now :
  - 2 ^ 63 <= now < 2 ^ 63 -> int64 (le_combine (le_split 8 now)) = now.
Proof.
  intros H. rewrite le_combine_split. unfold int64.
  change (2 ^ (Z.of_nat 8 * 8)) with (2 ^ 64).
  rewrite Zplus_mod_idemp_l.
  rewrite Z.mod_small; lia.
Qed.

Lemma prefix_unique {A} (a b c d : list A) :
  a ++ b = c ++ d -> length a = length c -> a = c /\ b = d.
Proof.
  revert c. induction a as [| x a IH]; intros [| y c] H Hl; try discriminate.
  - split; [reflexivity | exact H].
  - cbn in H, Hl. injection H as -> H. injection Hl as Hl.
    destruct (IH c H Hl) as [-> ->]. split; reflexivity.
Qed.

(** C7, as amended: on a stream that accepts every write, a frame written
    by [dumpPacket] for a payload shorter than 2^32 bytes is, in this
    order, the four bytes of the magic 0xAAAAAAAA, four bytes that are the
    little-endian u32 of the payload's byte count, the one-byte direction
    flag, eight bytes that are the little-endian i64 of the clock reading
    in milliseconds, the payload, and the four bytes of the magic
    0xBBBBBBBB. *)
Theorem dumpPacket_frame_layout (now : Z) (d : bool) (p o : list byte) :
  Z.of_nat (length p) < 2 ^ 32 ->
  - 2 ^ 63 <= now < 2 ^ 63 ->
  exists size_field time_field,
    out (snd (dumpPacket now d p (mkWriter o []))) =
      o ++ leading_magic ++ size_field ++ [bool_byte d] ++ time_field ++ p
        ++ trailing_magic
    /\ le_combine leading_magic = 0xAAAAAAAA
    /\ length size_field = 4%nat
    /\ le_combine size_field = Z.of_nat (length p)
    /\ length time_field = 8%nat
    /\ int64 (le_combine time_field) = now
    /\ le_combine trailing_magic = 0xBBBBBBBB.
Proof.
  intros Hp Hnow.
  exists (le_split 4 (Z.of_nat (length p))), (le_split 8 now).
  rewrite dumpPacket_whole. cbn [snd out].
  repeat split.
  - rewrite le_combine_split. apply Z.mod_small. change (Z.of_nat 4 * 8) with 32. lia.
  - apply int64_le_split. exact Hnow.
Qed.

Lemma dumpPacket_frame_layout_witness :
  exists size_field time_field,
    out (snd (dumpPacket 1700000000000 true [Byte.x68; Byte.x69] (mkWriter [] []))) =
      [] ++ leading_magic ++ size_field ++ [bool_byte true] ++ time_field
        ++ [Byte.x68; Byte.x69] ++ trailing_magic
    /\ le_combine leading_magic = 0xAAAAAAAA
    /\ length size_field = 4%nat
    /\ le_combine size_field = Z.of_nat (length [Byte.x68; Byte.x69])
    /\ length time_field = 8%nat
    /\ int64 (le_combine time_field) = 1700000000000
    /\ le_combine trailing_magic = 0xBBBBBBBB.
Proof.
  apply (dumpPacket_frame_layout 1700000000000 true [Byte.x68; Byte.x69] []).
  - cbn [length]. lia.
  - lia.
Defined.

(** C7, as stated, fails for a payload of 2^32 bytes: the size field of
    the frame written for it does not hold the payload's byte count
    (it holds zero). *)
Lemma dumpPacket_size_field_wraps :
  ~ (exists size_field rest,
       out (snd (dumpPacket 0 true huge fresh)) = leading_magic ++ size_field ++ rest
       /\ length size_field = 4%nat
       /\ le_combine size_field = Z.of_nat (length huge)).
Proof.
  intros (size_field & rest & Hout & Hlen & Hsize).
  unfold fresh in Hout. rewrite dumpPacket_whole in Hout. cbn [snd out app] in Hout.
  unfold wire_frame in Hout.
  change (le_split 4 0xAAAAAAAA) with leading_magic in Hout.
  apply app_inv_head in Hout.
  apply prefix_unique in Hout; [| rewrite length_le_split; symmetry; exact Hlen].
  destruct Hout as [Hfield _].
  rewrite <- Hfield, le_combine_split, huge_length in Hsize.
  vm_compute in Hsize. discriminate.
Qed.

(** C8, as amended: when the stream takes only [n] bytes of the payload,
    [n] less than the declared length, and takes the other writes of the
    frame whole, the padding among them, [dumpPacket] logs the error and
    follows the [n] bytes with zero bytes up to the declared length; the
    region between the timestamp and the trailing magic is so exactly as
    long as declared, however short the payload write was. *)
Theorem dumpPacket_pads_short_write (now : Z) (d : bool) (p o : list byte)
  (n : nat) (later : list (option nat)) :
  let declared := uint32 (Z.of_nat (length p)) in
  let region := firstn n p ++ repeat Byte.x00 (Z.to_nat (declared - Z.of_nat n)) in
  Z.of_nat n < declared ->
  dumpPacket now d p
    (mkWriter o ([None; None; None; None; Some n; None; None] ++ later)) =
    ([io_ErrShortWrite],
     mkWriter (o ++ leading_magic ++ le_split 4 declared ++ [bool_byte d]
                 ++ le_split 8 now ++ region ++ trailing_magic) later)
  /\ Z.of_nat (length region) = declared.
Proof.
  intros declared region Hn.
  pose proof (uint32_le (Z.of_nat (length p)) (Nat2Z.is_nonneg _)) as Hle.
  fold declared in Hle.
  assert (Hmin : Nat.min n (length p) = n) by lia.
  split.
  - unfold dumpPacket, binary_Write_uint32, binary_Write_bool, binary_Write_int64,
      bind, ret, io_Write.
    cbn [faults out app snd fst]. fold declared.
    rewrite Hmin.
    destruct (Nat.ltb_spec n (length p)) as [_ | Hge]; [| lia].
    destruct (Z.ltb_spec (Z.of_nat n) declared) as [_ | Hge]; [| lia].
    cbn [faults out app snd fst].
    unfold region. rewrite <- !app_assoc. reflexivity.
  - unfold region. rewrite length_app, length_firstn, repeat_length. lia.
Qed.

Lemma dumpPacket_pads_short_write_witness :
  let p := [Byte.x68; Byte.x65; Byte.x6c; Byte.x6c; Byte.x6f] in
  let declared := uint32 (Z.of_nat (length p)) in
  let region := firstn 2 p ++ repeat Byte.x00 (Z.to_nat (declared - Z.of_nat 2)) in
  dumpPacket 7 false p (mkWriter [] ([None; None; None; None; Some 2%nat; None; None] ++ [])) =
    ([io_ErrShortWrite],
     mkWriter ([] ++ leading_magic ++ le_split 4 declared ++ [bool_byte false]
                 ++ le_split 8 7 ++ region ++ trailing_magic) [])
  /\ Z.of_nat (length region) = declared.
Proof.
  apply (dumpPacket_pads_short_write 7 false
           [Byte.x68; Byte.x65; Byte.x6c; Byte.x6c; Byte.x6f] [] 2 []).
  vm_compute. reflexivity.
Defined.

(** C8, as stated, fails when the stream goes on refusing bytes: it
    takes two of the five payload bytes and nothing after that, neither
    padding nor trailing magic; the frame ends with the two bytes. *)
Lemma dumpPacket_stream_stays_full :
  let p := [Byte.x68; Byte.x65; Byte.x6c; Byte.x6c; Byte.x6f] in
  let w := mkWriter [] [None; None; None; None; Some 2%nat; Some 0%nat; Some 0%nat] in
  let written := out (snd (dumpPacket 7 false p w)) in
  Z.of_nat 2 < uint32 (Z.of_nat (length p))
  /\ written =
       leading_magic ++ le_split 4 5 ++ [bool_byte false] ++ le_split 8 7
         ++ [Byte.x68; Byte.x65]
  /\ skipn (17 + 5) written <> trailing_magic.
Proof.
  cbv zeta. split; [reflexivity |]. split; [reflexivity |].
  vm_compute. discriminate.
Qed.

(** The same with general figures: when the stream cuts the padding short
    as well, after [k] zero bytes, the trailing magic comes earlier than
    declared. *)
Lemma dumpPacket_padding_cut (now : Z) (d : bool) (p o : list byte)
  (n k : nat) (later : list (option nat)) :
  let declared := uint32 (Z.of_nat (length p)) in
  let region := firstn n p ++ repeat Byte.x00 k in
  Z.of_nat n + Z.of_nat k < declared ->
  dumpPacket now d p
    (mkWriter o ([None; None; None; None; Some n; Some k; None] ++ later)) =
    ([io_ErrShortWrite],
     mkWriter (o ++ leading_magic ++ le_split 4 declared ++ [bool_byte d]
                 ++ le_split 8 now ++ region ++ trailing_magic) later)
  /\ Z.of_nat (length region) < declared.
Proof.
  intros declared region Hn.
  pose proof (uint32_le (Z.of_nat (length p)) (Nat2Z.is_nonneg _)) as Hle.
  fold declared in Hle.
  assert (Hmin : Nat.min n (length p) = n) by lia.
  split.
  - unfold dumpPacket, binary_Write_uint32, binary_Write_bool, binary_Write_int64,
      bind, ret, io_Write.
    cbn [faults out app snd fst]. fold declared.
    rewrite Hmin.
    destruct (Nat.ltb_spec n (length p)) as [_ | Hge]; [| lia].
    destruct (Z.ltb_spec (Z.of_nat n) declared) as [_ | Hge]; [| lia].
    cbn [faults out app snd fst].
    rewrite repeat_length.
    assert (Hk : Nat.min k (Z.to_nat (declared - Z.of_nat n)) = k) by lia.
    rewrite Hk.
    replace (Z.to_nat (declared - Z.of_nat n))
      with (k + (Z.to_nat (declared - Z.of_nat n) - k))%nat by lia.
    rewrite repeat_app, firstn_app, repeat_length, Nat.sub_diag, firstn_O, app_nil_r.
    rewrite (@firstn_all2 _ k (repeat Byte.x00 k)) by (rewrite repeat_length; lia).
    unfold region. rewrite <- !app_assoc. reflexivity.
  - unfold region. rewrite length_app, length_firstn, repeat_length. lia.
Qed.

(** ** Reading frames back *)

Import Replay.

Section ReaderFacts.

Lemma io_ReadFull_app (x rest : list byte) :
  io_ReadFull (length x) (x ++ rest) = ((x, None), rest).
Proof.
  destruct x as [| a x]; [reflexivity |].
  assert (E : (length ((a :: x) ++ rest) <? length (a :: x))%nat = false).
  { apply Nat.ltb_ge. rewrite length_app. lia. }
  unfold io_ReadFull. cbn [length app] in E |- *. rewrite E.
  cbn [firstn skipn].
  rewrite firstn_app, skipn_app, Nat.sub_diag, firstn_all, skipn_all.
  cbn [firstn skipn app]. rewrite app_nil_r. reflexivity.
Qed.

Lemma binary_Read_uint32_app old (bs rest : list byte) :
  length bs = 4%nat ->
  binary_Read_uint32 old (bs ++ rest) = ((le_combine bs, None), rest).
Proof.
  intros H. unfold binary_Read_uint32, bind. rewrite <- H, io_ReadFull_app. reflexivity.
Qed.

Lemma binary_Read_uint32_le_split old v rest :
  binary_Read_uint32 old (le_split 4 v ++ rest) = ((uint32 v, None), rest).
Proof.
  rewrite binary_Read_uint32_app by apply length_le_split.
  rewrite le_combine_split. reflexivity.
Qed.

Lemma binary_Read_bool_app old b rest :
  binary_Read_bool old (b :: rest) = ((negb (byte.unsigned b =? 0), None), rest).
Proof.
  unfold binary_Read_bool, bind.
  change (io_ReadFull 1 (b :: rest)) with (io_ReadFull (length [b]) ([b] ++ rest)).
  rewrite io_ReadFull_app. cbn [ret]. rewrite le_combine_1. reflexivity.
Qed.

Lemma binary_Read_int64_app old (bs rest : list byte) :
  length bs = 8%nat ->
  binary_Read_int64 old (bs ++ rest) = ((int64 (le_combine bs), None), rest).
Proof.
  intros H. unfold binary_Read_int64, bind. rewrite <- H, io_ReadFull_app. reflexivity.
Qed.

Lemma bool_byte_read d : negb (byte.unsigned (bool_byte d) =? 0) = d.
Proof. destruct d; reflexivity. Qed.

(** [readPacket] after a whole header: what it does with the rest. *)
Lemma readPacket_header ver declared d time_field rest :
  length time_field = 8%nat ->
  readPacket ver (frame_header ver declared d time_field ++ rest) =
    (let toServer := negb (byte.unsigned d =? 0) in
     '(payload, err) <- io_ReadFull (Z.to_nat (uint32 declared)) ;;
     match err with
     | Some e => ret (None, toServer, Some e)
     | None =>
         if negb (Z.of_nat (length payload) =? uint32 declared)
         then ret (None, toServer, Some (errors_New "truncated"))
         else
           '(magic2, _) <- binary_Read_uint32 0 ;;
           if negb (magic2 =? 0xBBBBBBBB)
           then ret (None, toServer, Some (errors_New "wrong Magic2"))
           else ret (Some payload, toServer, None)
     end) rest.
Proof.
  intros Ht. unfold frame_header, readPacket.
  rewrite <- !app_assoc.
  unfold bind at 1. rewrite binary_Read_uint32_app by reflexivity.
  change (le_combine leading_magic =? 0xAAAAAAAA) with true. cbn [negb].
  unfold bind at 1. rewrite binary_Read_uint32_le_split.
  unfold bind at 1. cbn [app]. rewrite binary_Read_bool_app.
  unfold bind at 1.
  destruct (2 <=? ver).
  - unfold bind at 1. rewrite binary_Read_int64_app by exact Ht. reflexivity.
  - reflexivity.
Qed.

Lemma wire_frame_header ver now d p :
  2 <= ver ->
  wire_frame now d p =
    frame_header ver (Z.of_nat (length p)) (bool_byte d) (le_split 8 now)
      ++ p ++ trailing_magic.
Proof.
  intros Hv. unfold wire_frame, frame_header.
  destruct (Z.leb_spec 2 ver) as [_ | Hlt]; [| lia].
  rewrite <- !app_assoc. reflexivity.
Qed.

(** A frame of the writer is read back whole, when its payload is
    shorter than 2^32 bytes. *)
Lemma readPacket_wire_frame ver now d p rest :
  2 <= ver ->
  Z.of_nat (length p) < 2 ^ 32 ->
  readPacket ver (wire_frame now d p ++ rest) = ((Some p, d, None), rest).
Proof.
  intros Hv Hp.
  rewrite (wire_frame_header ver) by exact Hv.
  rewrite <- !app_assoc.
  rewrite readPacket_header by apply length_le_split.
  rewrite uint32_small by lia. rewrite Nat2Z.id.
  cbv zeta. unfold bind at 1. rewrite io_ReadFull_app.
  rewrite Z.eqb_refl. cbn [negb].
  unfold bind at 1. rewrite binary_Read_uint32_app by reflexivity.
  rewrite bool_byte_read. reflexivity.
Qed.

Lemma read_frames_fuel_capture ver calls : forall fuel,
  2 <= ver ->
  Forall fits_u32 calls ->
  (length calls < fuel)%nat ->
  read_frames_fuel fuel ver (capture calls) = Some (map pair_of calls, None).
Proof.
  induction calls as [| c rest IH]; intros fuel Hv Hfit Hfuel.
  - destruct fuel as [| fuel]; [cbn in Hfuel; lia |]. reflexivity.
  - destruct fuel as [| fuel]; [cbn in Hfuel; lia |].
    inversion Hfit as [| ? ? Hc Hrest]; subst.
    rewrite capture_cons. cbn [read_frames_fuel].
    rewrite readPacket_wire_frame by assumption.
    rewrite IH; [reflexivity | assumption | assumption | cbn in Hfuel; lia].
Qed.

Lemma wire_frame_length now d p : (0 < length (wire_frame now d p))%nat.
Proof. unfold wire_frame. rewrite length_app, length_le_split. lia. Qed.

Lemma capture_length calls : (length calls <= length (capture calls))%nat.
Proof.
  induction calls as [| c rest IH]; [cbn; lia |].
  rewrite capture_cons, length_app. cbn [length].
  pose proof (wire_frame_length (at_ms c) (toServer c) (payload c)). lia.
Qed.

End ReaderFacts.

(** C1, as amended: for every sequence of calls of [dumpPacket] whose
    payloads are each shorter than 2^32 bytes (empty payloads included),
    whatever the clock read at each call, reading the capture back with
    [readPacket] at the current version gives the same (direction,
    payload) pairs, in the same order, and ends without an error. *)
Theorem capture_replay_roundtrip (calls : list Call) :
  Forall fits_u32 calls ->
  read_frames currentReplayVersion (capture calls) = Some (map pair_of calls, None).
Proof.
  intros Hfit. unfold read_frames.
  apply read_frames_fuel_capture.
  - unfold currentReplayVersion. lia.
  - exact Hfit.
  - pose proof (capture_length calls). lia.
Qed.

Lemma capture_replay_roundtrip_witness :
  let calls := [mkCall 1 true [Byte.x68; Byte.x65; Byte.x6c; Byte.x6c; Byte.x6f];
                mkCall 2 false [];
                mkCall 3 true (repeat Byte.x00 1000)] in
  read_frames currentReplayVersion (capture calls) = Some (map pair_of calls, None).
Proof.
  apply (capture_replay_roundtrip
           [mkCall 1 true [Byte.x68; Byte.x65; Byte.x6c; Byte.x6c; Byte.x6f];
            mkCall 2 false [];
            mkCall 3 true (repeat Byte.x00 1000)]).
  repeat constructor; unfold fits_u32; cbn [payload]; rewrite ?repeat_length; cbn [length]; lia.
Defined.

Section HugePayload.

Lemma huge_unfold :
  huge = [Byte.x00; Byte.x00; Byte.x00; Byte.x00] ++ repeat Byte.x00 (N.to_nat 4294967292).
Proof.
  unfold huge.
  replace (N.to_nat 4294967296) with (4 + N.to_nat 4294967292)%nat by lia.
  rewrite repeat_app. reflexivity.
Qed.

Lemma io_ReadFull_0 (s : Reader) : io_ReadFull 0 s = (([], None), s).
Proof. reflexivity. Qed.

(** The frame written for the huge payload declares length zero, so
    that [readPacket] looks for the trailing magic in the payload. *)
Lemma readPacket_huge ver now d rest :
  2 <= ver ->
  fst (readPacket ver (wire_frame now d huge ++ rest)) =
    (None, d, Some (errors_New "wrong Magic2")).
Proof.
  intros Hv.
  rewrite (wire_frame_header ver) by exact Hv.
  rewrite <- !app_assoc.
  rewrite readPacket_header by apply length_le_split.
  rewrite huge_length.
  change (uint32 4294967296) with 0. change (Z.to_nat 0) with 0%nat.
  cbv zeta. unfold bind at 1. rewrite io_ReadFull_0.
  change (negb (Z.of_nat (length (@nil byte)) =? 0)) with false. cbv iota.
  rewrite huge_unfold, <- !app_assoc.
  unfold bind at 1. rewrite binary_Read_uint32_app by reflexivity.
  rewrite bool_byte_read. reflexivity.
Qed.

Lemma read_frames_unfold ver s :
  read_frames ver s = read_frames_fuel (S (length s)) ver s.
Proof. reflexivity. Qed.

Lemma read_frames_fuel_stop fuel ver s d e :
  fst (readPacket ver s) = (None, d, e) ->
  read_frames_fuel (S fuel) ver s = Some ([], e).
Proof.
  intros H. cbn [read_frames_fuel].
  destruct (readPacket ver s) as [r s']. cbn [fst] in H. subst r. reflexivity.
Qed.

(** The capture of one call with the huge payload is read back as no
    frame at all. *)
Lemma read_frames_huge now d :
  read_frames currentReplayVersion (wire_frame now d huge) =
    Some ([], Some (errors_New "wrong Magic2")).
Proof.
  rewrite read_frames_unfold.
  apply (read_frames_fuel_stop _ _ _ d).
  rewrite <- (app_nil_r (wire_frame now d huge)).
  apply readPacket_huge. unfold currentReplayVersion. lia.
Qed.

End HugePayload.

(** C1, as stated, fails for a payload of 2^32 bytes: the capture of one
    call with that payload is not read back as that call, the reader
    stops on the error "wrong Magic2". *)
Lemma capture_replay_huge :
  read_frames currentReplayVersion (capture [mkCall 0 true huge])
    <> Some (map pair_of [mkCall 0 true huge], None).
Proof.
  intros H. rewrite capture_one, read_frames_huge in H. discriminate H.
Qed.

Section Truncation.

Lemma io_ReadFull_short n s :
  (length s < n)%nat ->
  io_ReadFull n s =
    ((s, Some (match s with [] => io_EOF | _ => io_ErrUnexpectedEOF end)), []).
Proof.
  intros H. destruct n as [| n]; [lia |].
  destruct s as [| a s]; [reflexivity |].
  unfold io_ReadFull.
  destruct (Nat.ltb_spec (length (a :: s)) (S n)) as [_ | Hge]; [reflexivity | lia].
Qed.

End Truncation.

(** C6: after a whole frame header that declares more payload bytes than
    the stream still holds, [readPacket] returns a nil payload and an
    error: [io.EOF] when no payload byte is left (the stream ends in the
    middle of the frame), [io.ErrUnexpectedEOF] when some are (a short
    read); the short payload is never returned. *)
Theorem readPacket_truncated (ver declared : Z) (d : byte)
  (time_field rest : list byte) :
  length time_field = 8%nat ->
  0 <= declared < 2 ^ 32 ->
  Z.of_nat (length rest) < declared ->
  readPacket ver (frame_header ver declared d time_field ++ rest) =
    ((None, negb (byte.unsigned d =? 0),
      Some (match rest with [] => io_EOF | _ => io_ErrUnexpectedEOF end)), []).
Proof.
  intros Ht Hd Hshort.
  rewrite readPacket_header by exact Ht.
  rewrite uint32_small by exact Hd.
  cbv zeta. unfold bind at 1.
  rewrite io_ReadFull_short by lia. reflexivity.
Qed.

Lemma readPacket_truncated_witness :
  readPacket 3 (frame_header 3 5 Byte.x01 (le_split 8 1700000000000)
                  ++ [Byte.x68; Byte.x65; Byte.x6c]) =
    ((None, negb (byte.unsigned Byte.x01 =? 0),
      Some (match [Byte.x68; Byte.x65; Byte.x6c] with
            | [] => io_EOF
            | _ => io_ErrUnexpectedEOF
            end)), []).
Proof.
  apply (readPacket_truncated 3 5 Byte.x01 (le_split 8 1700000000000)
           [Byte.x68; Byte.x65; Byte.x6c]).
  - reflexivity.
  - lia.
  - cbn [length]. lia.
Defined.

(** ** Opening a capture *)

(** C3: a container whose entry [version] declares another version than
    3, the version the reader implements, is refused when it is opened:
    [createReplayConnector] returns the error "wrong version" and no
    connector, whatever the version declared. *)
Theorem createReplayConnector_wrong_version {deps : Deps}
  (fsys : FileSystem) (filename : string) (f : File) (z : zip_Reader) (v : Z) :
  fsys filename = Some f ->
  archive f = inl z ->
  declared_version z = Some v ->
  v <> currentReplayVersion ->
  createReplayConnector fsys filename = (None, Some (errors_New "wrong version")).
Proof.
  intros Hf Hz Hv Hne.
  unfold createReplayConnector, os_Open. rewrite Hf, Hz.
  unfold declared_version in Hv.
  destruct (zip_Open z "version") as [vf | e]; [| discriminate].
  injection Hv as Hv.
  destruct (binary_Read_uint32 0 vf) as [[v' err] s'].
  cbn [fst] in Hv |- *. subst v'.
  destruct (Z.eqb_spec v 3) as [-> | _]; [| reflexivity].
  exfalso. apply Hne. reflexivity.
Qed.

Lemma createReplayConnector_wrong_version_witness :
  createReplayConnector (deps := Demo.plain_deps)
    (Demo.disk (Demo.capture_file 99 [])) "capture.zip" =
    (None, Some (errors_New "wrong version")).
Proof.
  apply (createReplayConnector_wrong_version (deps := Demo.plain_deps)
           (Demo.disk (Demo.capture_file 99 [])) "capture.zip"
           (Demo.capture_file 99 [])
           [("version"%string, le_split 4 99);
            ("packets.bin"%string, Capture.capture [])] 99).
  - reflexivity.
  - reflexivity.
  - reflexivity.
  - unfold currentReplayVersion. lia.
Defined.

(** C4, as stated, fails: a zip archive, which begins with the zip
    signature "PK" 03 04 and not with [replayMagic], is opened for replay
    without an error. *)
Lemma createReplayConnector_ignores_magic :
  firstn 4 DemoDisk.tiny_zip <> replayMagic
  /\ header_magic (OnDisk.opened DemoDisk.zip_NewReader
                     (OnDisk.mkDiskFile DemoDisk.tiny_zip (inl 214)) 214) <> replayMagic
  /\ exists r,
       OnDisk.createReplayConnector_on (deps := Demo.plain_deps)
         DemoDisk.zip_NewReader DemoDisk.disk "capture.zip" = Some (Some r, None).
Proof.
  split; [discriminate |]. split; [discriminate |].
  eexists. vm_compute. reflexivity.
Qed.

(** What [createReplayConnector] returns, and when it is a connector. *)
Lemma createReplayConnector_outcome {deps : Deps}
  (fsys : FileSystem) (filename : string) :
  ((exists r, createReplayConnector fsys filename = (Some r, None))
   \/ (exists e, createReplayConnector fsys filename = (None, Some e)))
  /\ (forall r,
        createReplayConnector fsys filename = (Some r, None) <->
        exists f z pf h,
          fsys filename = Some f
          /\ archive f = inl z
          /\ declared_version z = Some 3
          /\ replayCache_ReadFrom z NewRpHandler = (None, h)
          /\ zip_Open z "packets.bin" = inl pf
          /\ r = mkConn 3 pf Open [] Open Open false zero_GameData h []).
Proof.
  unfold createReplayConnector, os_Open, declared_version.
  destruct (fsys filename) as [f |].
  2: { split; [right; eexists; reflexivity |].
       intros r; split; [discriminate |].
       intros (f & z & pf & h & Hf & _); discriminate. }
  destruct (archive f) as [z | e] eqn:Hz.
  2: { split; [right; eexists; reflexivity |].
       intros r; split; [discriminate |].
       intros (f' & z & pf & h & Hf & Hz' & _).
       injection Hf as <-. rewrite Hz in Hz'. discriminate. }
  destruct (zip_Open z "version") as [vf | e] eqn:Hvf.
  2: { split; [right; eexists; reflexivity |].
       intros r; split; [discriminate |].
       intros (f' & z' & pf & h & Hf & Hz' & Hv & _).
       injection Hf as <-. rewrite Hz in Hz'. injection Hz' as <-.
       rewrite Hvf in Hv. discriminate. }
  destruct (binary_Read_uint32 0 vf) as [[v err] s'] eqn:Hread. cbn [fst].
  destruct (Z.eqb_spec v 3) as [-> | Hne]; cbn [negb].
  2: { split; [right; eexists; reflexivity |].
       intros r; split; [discriminate |].
       intros (f' & z' & pf & h & Hf & Hz' & Hv & _).
       injection Hf as <-. rewrite Hz in Hz'. injection Hz' as <-.
       rewrite Hvf in Hv. injection Hv as Hv.
       rewrite Hread in Hv. cbn [fst] in Hv. contradiction. }
  destruct (replayCache_ReadFrom z NewRpHandler) as [[e |] h] eqn:Hcache.
  { split; [right; eexists; reflexivity |].
    intros r; split; [discriminate |].
    intros (f' & z' & pf & h' & Hf & Hz' & _ & Hc & _).
    injection Hf as <-. rewrite Hz in Hz'. injection Hz' as <-.
    rewrite Hcache in Hc. discriminate. }
  destruct (zip_Open z "packets.bin") as [pf | e] eqn:Hpf.
  2: { split; [right; eexists; reflexivity |].
       intros r; split; [discriminate |].
       intros (f' & z' & pf & h' & Hf & Hz' & _ & _ & Hp & _).
       injection Hf as <-. rewrite Hz in Hz'. injection Hz' as <-.
       rewrite Hpf in Hp. discriminate. }
  split; [left; eexists; reflexivity |].
  intros r; split.
  - intros H. injection H as <-. exists f, z, pf, h.
    rewrite Hvf, Hread. repeat split; assumption.
  - intros (f' & z' & pf' & h' & Hf & Hz' & _ & Hc & Hp & ->).
    injection Hf as <-. rewrite Hz in Hz'. injection Hz' as <-.
    rewrite Hcache in Hc. injection Hc as <-.
    rewrite Hpf in Hp. injection Hp as <-. reflexivity.
Qed.

(** C4, as amended: opening a file for replay verifies no header magic.
    All it does with the bytes of the file is to hand them to
    [zip.NewReader]: a file that cannot be opened is refused with the
    error of [os.Open], a file that is no zip archive with the error of
    [zip.NewReader], and a file whose archive has an entry [version] that
    reads as 3, packs that load and an entry [packets.bin] is opened,
    whatever bytes it begins with.  The version is verified before the
    packs are loaded and before the frame log is opened: when it reads as
    another number the open fails with "wrong version" whatever the packs
    and the frame log are.  The open returns a connector and no error or
    an error and no connector, and it panics exactly when [Stat] on the
    open file fails. *)
Theorem createReplayConnector_accepts {deps : Deps}
  (zip_NewReader : list byte -> Z -> zip_Reader + error)
  (disk : OnDisk.Disk) (filename : string) :
  (OnDisk.createReplayConnector_on zip_NewReader disk filename = None <->
     exists d e, disk filename = inl d /\ OnDisk.stat d = inr e)
  /\ (forall r err,
        OnDisk.createReplayConnector_on zip_NewReader disk filename = Some (r, err) ->
        (exists c, r = Some c /\ err = None) \/ (exists e, r = None /\ err = Some e))
  /\ (forall e,
        disk filename = inr e ->
        OnDisk.createReplayConnector_on zip_NewReader disk filename =
          Some (None, Some e))
  /\ (forall d size,
        disk filename = inl d ->
        OnDisk.stat d = inl size ->
        (forall e,
           zip_NewReader (OnDisk.bytes d) size = inr e ->
           OnDisk.createReplayConnector_on zip_NewReader disk filename =
             Some (None, Some e))
        /\ (forall z vf,
              zip_NewReader (OnDisk.bytes d) size = inl z ->
              zip_Open z "version" = inl vf ->
              fst (fst (binary_Read_uint32 0 vf)) <> 3 ->
              OnDisk.createReplayConnector_on zip_NewReader disk filename =
                Some (None, Some (errors_New "wrong version")))
        /\ (forall z vf h pf,
              zip_NewReader (OnDisk.bytes d) size = inl z ->
              zip_Open z "version" = inl vf ->
              fst (fst (binary_Read_uint32 0 vf)) = 3 ->
              replayCache_ReadFrom z NewRpHandler = (None, h) ->
              zip_Open z "packets.bin" = inl pf ->
              OnDisk.createReplayConnector_on zip_NewReader disk filename =
                Some (Some (mkConn 3 pf Open [] Open Open false zero_GameData h []),
                      None))).
Proof.
  unfold OnDisk.createReplayConnector_on.
  split; [| split; [| split]].
  - destruct (disk filename) as [d | e].
    + destruct (OnDisk.stat d) as [size | e] eqn:Hs.
      * split; [discriminate |]. intros (d' & e & Hd & He).
        injection Hd as <-. rewrite Hs in He. discriminate.
      * split; [| reflexivity]. intros _. exists d, e. split; [reflexivity | exact Hs].
    + split; [discriminate |]. intros (d & e' & Hd & _). discriminate.
  - intros r err H.
    destruct (disk filename) as [d | e].
    + destruct (OnDisk.stat d) as [size | e]; [| discriminate].
      injection H as H.
      destruct (createReplayConnector_outcome
                  (fun _ => Some (OnDisk.opened zip_NewReader d size)) filename)
        as [[(c & Hc) | (e & He)] _].
      * rewrite Hc in H. injection H as <- <-. left. exists c. split; reflexivity.
      * rewrite He in H. injection H as <- <-. right. exists e. split; reflexivity.
    + injection H as <- <-. right. exists e. split; reflexivity.
  - intros e ->. reflexivity.
  - intros d size -> ->.
    unfold createReplayConnector, os_Open, OnDisk.opened. cbn [archive].
    split; [| split].
    + intros e ->. reflexivity.
    + intros z vf -> -> Hv.
      destruct (binary_Read_uint32 0 vf) as [[v err] s']. cbn [fst] in Hv |- *.
      destruct (Z.eqb_spec v 3) as [-> | _]; [contradiction | reflexivity].
    + intros z vf h pf -> -> Hv -> ->.
      destruct (binary_Read_uint32 0 vf) as [[v err] s']. cbn [fst] in Hv |- *.
      subst v. reflexivity.
Qed.

Lemma createReplayConnector_just_opened {deps : Deps} fsys filename r :
  createReplayConnector fsys filename = (Some r, None) -> just_opened r.
Proof.
  intros H. apply (proj2 (createReplayConnector_outcome fsys filename)) in H.
  destruct H as (f & z & pf & h & _ & _ & _ & _ & _ & ->).
  repeat split.
Qed.

(** ** Closing, and reading after that *)

Section CloseFacts.
Context {deps : Deps}.

Lemma just_opened_once_guard r : just_opened r -> once_guard r.
Proof.
  intros (Hp & _ & _ & Hc & Ho & _). unfold once_guard. rewrite Ho. split; assumption.
Qed.

Lemma Close_first r :
  once_guard r ->
  exists r', Close r = Some (None, r') /\ once r' = true
             /\ close r' = Closed /\ packets r' = Closed /\ spawn r' = spawn r
             /\ sent r' = sent r /\ login_seen r' = login_seen r.
Proof.
  unfold once_guard, Close. destruct (once r) eqn:Ho; intros [Hc Hp].
  - exists r. repeat split; assumption.
  - rewrite Hc, Hp. cbn. eexists. split; [reflexivity |]. repeat split.
Qed.

Lemma Close_once_guard r err r' :
  once_guard r -> Close r = Some (err, r') -> once_guard r'.
Proof.
  intros Hg HC. destruct (Close_first r Hg) as (r1 & HC1 & Ho & Hc & Hp & _).
  rewrite HC1 in HC. injection HC as _ <-.
  unfold once_guard. rewrite Ho. split; assumption.
Qed.

Lemma handleLoginSequence_once_guard pk r res r' :
  once_guard r -> handleLoginSequence pk r = Some (res, r') -> once_guard r'.
Proof.
  unfold handleLoginSequence, with_handler, once_guard. intros Hg H.
  destruct pk as [name uid rid | c | c | c | c | rid | id c];
    cbn [resourcePackHandler note_login gameData spawn] in H.
  - injection H as _ <-. exact Hg.
  - destruct (OnResourcePacksInfo c (resourcePackHandler r)).
    injection H as _ <-. exact Hg.
  - destruct (OnResourcePackDataInfo c (resourcePackHandler r)).
    injection H as _ <-. exact Hg.
  - destruct (OnResourcePackChunkData c (resourcePackHandler r)).
    injection H as _ <-. exact Hg.
  - destruct (OnResourcePackStack c (resourcePackHandler r)).
    injection H as _ <-. exact Hg.
  - destruct (negb (rid =? EntityRuntimeID (gameData r))).
    + injection H as _ <-. exact Hg.
    + destruct (close_chan (spawn r)); [| discriminate].
      injection H as _ <-. exact Hg.
  - injection H as _ <-. exact Hg.
Qed.

Lemma send_packet_once_guard r pk r' :
  once_guard r -> send_packet r pk = Some r' -> once_guard r'.
Proof.
  unfold send_packet, once_guard. intros Hg H.
  destruct (packets r) eqn:Hp; [| discriminate].
  injection H as <-. cbn [once close packets]. exact Hg.
Qed.

(** [once_guard] holds of every connector there can be. *)
Lemma reachable_once_guard r : reachable r -> once_guard r.
Proof.
  induction 1 as [fsys filename r Hopen | r data _ IH | r s _ IH
                 | r pk res r' _ IH Hl | r pk r' _ IH Hs | r err r' _ IH HC].
  - apply just_opened_once_guard.
    apply (createReplayConnector_just_opened fsys filename r Hopen).
  - exact IH.
  - exact IH.
  - apply (handleLoginSequence_once_guard pk r res r' IH Hl).
  - apply (send_packet_once_guard r pk r' IH Hs).
  - apply (Close_once_guard r err r' IH HC).
Qed.

Lemma Close_again r : once r = true -> Close r = Some (None, r).
Proof. intros H. unfold Close. rewrite H. reflexivity. Qed.

Lemma Close_times_again n r : once r = true -> Close_times n r = Some r.
Proof.
  intros H. induction n as [| n IH]; [reflexivity |].
  cbn [Close_times]. rewrite Close_again by exact H. exact IH.
Qed.

End CloseFacts.

(** C5: on every connector there can be -- opened by
    [createReplayConnector] and then acted on in whatever way -- a call
    of [Close] returns nil without a panic, and so does every later call,
    however many, leaving the connector as it is; from the first call on
    a [ReadPacket], pending or new, has a case that is ready, and every
    case returns [net.ErrClosed] and no packet. *)
Theorem Close_idempotent {deps : Deps} (r : replayConnector) :
  reachable r ->
  exists r1,
    Close r = Some (None, r1)
    /\ Close r1 = Some (None, r1)
    /\ (forall n, Close_times n r1 = Some r1)
    /\ (forall offered,
          ReadPacket r1 offered <> []
          /\ forall res, In res (ReadPacket r1 offered) -> res = (None, Some net_ErrClosed)).
Proof.
  intros Hr. pose proof (reachable_once_guard r Hr) as Hg.
  destruct (Close_first r Hg) as (r1 & HC & Ho & Hc & Hp & _).
  exists r1. split; [exact HC |].
  split; [apply Close_again; exact Ho |].
  split; [intros n; apply Close_times_again; exact Ho |].
  intros offered. unfold ReadPacket. rewrite Hc, Hp. split.
  - discriminate.
  - intros res [<- | [<- | []]]; reflexivity.
Qed.

Lemma Close_idempotent_witness :
  exists r1,
    Close (deps := Demo.plain_deps) (Demo.connector_on []) = Some (None, r1)
    /\ Close r1 = Some (None, r1)
    /\ (forall n, Close_times n r1 = Some r1)
    /\ (forall offered,
          ReadPacket r1 offered <> []
          /\ forall res, In res (ReadPacket r1 offered) -> res = (None, Some net_ErrClosed)).
Proof.
  apply (Close_idempotent (deps := Demo.plain_deps) (Demo.connector_on [])).
  apply (reach_open (Demo.disk (Demo.capture_file 3 [])) "capture.zip").
  reflexivity.
Defined.

(** ** The decode loop and the spawn signal *)

Section ReaderProgress.

Lemma io_ReadFull_le n s : (length (snd (io_ReadFull n s)) <= length s)%nat.
Proof.
  unfold io_ReadFull. destruct n as [| n]; [cbn; lia |].
  destruct s as [| a s]; [cbn; lia |].
  destruct (length (a :: s) <? S n)%nat; cbn [snd].
  - cbn; lia.
  - rewrite length_skipn. lia.
Qed.

Lemma io_ReadFull_ok n s bs s' :
  io_ReadFull n s = ((bs, None), s') -> (length s' + n = length s)%nat.
Proof.
  unfold io_ReadFull. destruct n as [| n].
  - intros H. injection H as _ <-. lia.
  - destruct s as [| a s]; [discriminate |].
    destruct (length (a :: s) <? S n)%nat eqn:Hge; [discriminate |].
    apply Nat.ltb_ge in Hge.
    intros H. injection H as _ <-. rewrite length_skipn. cbn [length] in *. lia.
Qed.

Lemma binary_Read_uint32_le old s :
  (length (snd (binary_Read_uint32 old s)) <= length s)%nat.
Proof.
  unfold binary_Read_uint32, bind. pose proof (io_ReadFull_le 4 s) as H.
  destruct (io_ReadFull 4 s) as [[bs [e |]] s']; exact H.
Qed.

Lemma binary_Read_uint32_ok old s v s' :
  binary_Read_uint32 old s = ((v, None), s') -> (length s' + 4 = length s)%nat.
Proof.
  unfold binary_Read_uint32, bind.
  destruct (io_ReadFull 4 s) as [[bs [e |]] s1] eqn:E; [discriminate |].
  intros H. injection H as _ <-. apply (io_ReadFull_ok _ _ _ _ E).
Qed.

Lemma binary_Read_bool_le old s :
  (length (snd (binary_Read_bool old s)) <= length s)%nat.
Proof.
  unfold binary_Read_bool, bind. pose proof (io_ReadFull_le 1 s) as H.
  destruct (io_ReadFull 1 s) as [[bs [e |]] s']; exact H.
Qed.

Lemma binary_Read_int64_le old s :
  (length (snd (binary_Read_int64 old s)) <= length s)%nat.
Proof.
  unfold binary_Read_int64, bind. pose proof (io_ReadFull_le 8 s) as H.
  destruct (io_ReadFull 8 s) as [[bs [e |]] s']; exact H.
Qed.

(** A call of [readPacket] that returns a payload has taken bytes off the
    stream. *)
Lemma readPacket_consumes ver s p d e s' :
  readPacket ver s = ((Some p, d, e), s') -> (length s' < length s)%nat.
Proof.
  unfold readPacket. unfold bind at 1.
  destruct (binary_Read_uint32 0 s) as [[magic err] s1] eqn:E1.
  destruct err as [e0 |]; [destruct e0; discriminate |].
  apply binary_Read_uint32_ok in E1.
  destruct (negb (magic =? 2863311530)); [discriminate |].
  unfold bind at 1.
  pose proof (binary_Read_uint32_le 0 s1) as L2.
  destruct (binary_Read_uint32 0 s1) as [[len err2] s2]. cbn [snd] in L2.
  unfold bind at 1.
  pose proof (binary_Read_bool_le false s2) as L3.
  destruct (binary_Read_bool false s2) as [[dir err3] s3]. cbn [snd] in L3.
  unfold bind at 1.
  assert (L4 : forall s4 u,
             (if 2 <=? ver then binary_Read_int64 0;;; ret tt else ret tt) s3 = (u, s4) ->
             (length s4 <= length s3)%nat).
  { intros s4 u. destruct (2 <=? ver).
    - unfold bind, ret. pose proof (binary_Read_int64_le 0 s3) as L.
      destruct (binary_Read_int64 0 s3) as [x s4']. cbn [snd] in L.
      intros H. injection H as _ <-. exact L.
    - unfold ret. intros H. injection H as _ <-. lia. }
  destruct ((if 2 <=? ver then binary_Read_int64 0;;; ret tt else ret tt) s3)
    as [u s4].
  specialize (L4 s4 u eq_refl).
  unfold bind at 1.
  pose proof (io_ReadFull_le (Z.to_nat len) s4) as L5.
  destruct (io_ReadFull (Z.to_nat len) s4) as [[pl err5] s5]. cbn [snd] in L5.
  destruct err5 as [e5 |]; [discriminate |].
  destruct (negb (Z.of_nat (length pl) =? len)); [discriminate |].
  unfold bind at 1.
  pose proof (binary_Read_uint32_le 0 s5) as L6.
  destruct (binary_Read_uint32 0 s5) as [[m2 err6] s6]. cbn [snd] in L6.
  destruct (negb (m2 =? 3149642683)); [discriminate |].
  unfold ret. intros H. injection H as _ _ _ <-. lia.
Qed.

(** [read_frames] always has fuel enough. *)
Lemma read_frames_fuel_enough ver : forall fuel s,
  (length s < fuel)%nat -> read_frames_fuel fuel ver s <> None.
Proof.
  induction fuel as [| fuel IH]; intros s Hf; [lia |].
  cbn [read_frames_fuel].
  destruct (readPacket ver s) as [[[pl d] e] s'] eqn:E.
  destruct pl as [p |]; [| discriminate].
  apply readPacket_consumes in E.
  specialize (IH s' ltac:(lia)).
  destruct (read_frames_fuel fuel ver s') as [[frames e'] |]; [discriminate | contradiction].
Qed.

Lemma read_frames_total ver s : read_frames ver s <> None.
Proof. apply read_frames_fuel_enough. lia. Qed.

End ReaderProgress.

Section LoopFacts.
Context {deps : Deps}.

Ltac fields :=
  cbn [ver packetF packets sent spawn close once gameData resourcePackHandler
       login_seen set_packetF SetGameData set_spawn set_resourcePackHandler
       note_login EntityRuntimeID].

Lemma declared_id_snoc pre pk :
  declared_id (pre ++ [pk]) =
    match pk with StartGame _ _ rid => rid | _ => declared_id pre end.
Proof. unfold declared_id. rewrite fold_left_app. destruct pk; reflexivity. Qed.

Lemma confirmed_snoc seen pk :
  confirmed (seen ++ [pk]) <->
  exists id, pk = SetLocalPlayerAsInitialised id /\ id = declared_id seen.
Proof.
  split.
  - intros (pre & id & Heq & Hid). apply app_inj_tail in Heq. destruct Heq as [-> ->].
    exists id. split; [reflexivity | exact Hid].
  - intros (id & -> & Hid). exists seen, id. split; [reflexivity | exact Hid].
Qed.

Lemma refused_snoc seen pk :
  refused (seen ++ [pk]) <->
  exists id, pk = SetLocalPlayerAsInitialised id /\ id <> declared_id seen.
Proof.
  split.
  - intros (pre & id & Heq & Hid). apply app_inj_tail in Heq. destruct Heq as [-> ->].
    exists id. split; [reflexivity | exact Hid].
  - intros (id & -> & Hid). exists seen, id. split; [reflexivity | exact Hid].
Qed.

Lemma no_confirmation_not_confirmed seen :
  existsb is_confirmation seen = false -> ~ confirmed seen /\ ~ refused seen.
Proof.
  intros H. split; intros (pre & id & -> & _);
    rewrite existsb_app in H; cbn in H; rewrite orb_true_r in H; discriminate.
Qed.

Lemma confirmed_not_refused seen : confirmed seen -> ~ refused seen.
Proof.
  intros (pre & id & -> & Hid) (pre' & id' & Heq & Hid').
  apply app_inj_tail in Heq. destruct Heq as [-> Heq]. injection Heq as ->.
  contradiction.
Qed.

(** One login packet: [handleLoginSequence] does not panic, leaves the
    stream alone, and either keeps the invariant or fails as [stop_inv]
    tells. *)
Lemma handleLoginSequence_inv pk r :
  loop_inv r false ->
  exists started err r',
    handleLoginSequence pk r = Some ((started, err), r')
    /\ packetF r' = packetF r /\ ver r' = ver r
    /\ match err with
       | None => loop_inv r' started
       | Some e => stop_inv r' [e]
       end.
Proof.
  intros (Ho & Hc & Hp & Hs & Hsent & Hnc & Hid).
  assert (Hplain : is_StartGame pk = false -> is_confirmation pk = false ->
                   existsb is_confirmation (login_seen r ++ [pk]) = false
                   /\ declared_id (login_seen r ++ [pk]) = declared_id (login_seen r)
                   /\ ~ confirmed (login_seen r ++ [pk])
                   /\ ~ refused (login_seen r ++ [pk])).
  { intros H1 H2. rewrite existsb_app, Hnc, declared_id_snoc. cbn. rewrite H2.
    split; [reflexivity |]. split; [destruct pk; try reflexivity; discriminate |].
    split.
    - rewrite confirmed_snoc. intros (id & -> & _). discriminate.
    - rewrite refused_snoc. intros (id & -> & _). discriminate. }
  assert (Hhandler : forall m : State rpHandler (option error),
             is_StartGame pk = false -> is_confirmation pk = false ->
             exists started err r',
               Some (with_handler m (note_login r pk)) = Some ((started, err), r')
               /\ packetF r' = packetF r /\ ver r' = ver r
               /\ match err with
                  | None => loop_inv r' started
                  | Some e => stop_inv r' [e]
                  end).
  { intros m H1 H2. destruct (Hplain H1 H2) as (Ha & Hb & Hd & He).
    unfold with_handler. cbn [resourcePackHandler note_login].
    destruct (m (resourcePackHandler r)) as [err h].
    exists false, err. eexists. split; [reflexivity |].
    split; [reflexivity |]. split; [reflexivity |].
    destruct err as [e |].
    - unfold stop_inv. fields. repeat split; try assumption. intros Hr. contradiction.
    - unfold loop_inv. fields. repeat split; try assumption. rewrite Hb. exact Hid. }
  destruct pk as [name uid rid | c | c | c | c | rid | id c];
    try (apply Hhandler; reflexivity).
  - (* StartGame *)
    unfold handleLoginSequence. exists false, None. eexists. split; [reflexivity |].
    split; [reflexivity |]. split; [reflexivity |].
    unfold loop_inv. fields. repeat split; try assumption.
    + rewrite existsb_app, Hnc. reflexivity.
    + rewrite declared_id_snoc. reflexivity.
  - (* SetLocalPlayerAsInitialised *)
    unfold handleLoginSequence. cbn [gameData note_login spawn].
    destruct (Z.eqb_spec rid (EntityRuntimeID (gameData r))) as [Heq | Hne]; cbn [negb].
    + rewrite Hs. cbn [close_chan].
      exists true, None. eexists. split; [reflexivity |].
      split; [reflexivity |]. split; [reflexivity |].
      unfold loop_inv. fields. repeat split; try assumption.
      apply confirmed_snoc. exists rid. split; [reflexivity |]. congruence.
    + exists false, (Some mismatch). eexists. split; [reflexivity |].
      split; [reflexivity |]. split; [reflexivity |].
      unfold stop_inv. fields. repeat split; try assumption.
      * rewrite confirmed_snoc. intros (id & Hpk & Hd). injection Hpk as <-. congruence.
      * intros _. left. reflexivity.
  - (* any other packet *)
    destruct (Hplain eq_refl eq_refl) as (Ha & Hb & Hd & He).
    unfold handleLoginSequence. exists false, None. eexists. split; [reflexivity |].
    split; [reflexivity |]. split; [reflexivity |].
    unfold loop_inv. fields. repeat split; try assumption. rewrite Hb. exact Hid.
Qed.

(** The packets of one frame. *)
Lemma range_pks_inv pks : forall r gameStarted,
  loop_inv r gameStarted ->
  match range_pks pks r gameStarted with
  | Next r' started => loop_inv r' started /\ packetF r' = packetF r /\ ver r' = ver r
  | Return r' e => stop_inv r' [e]
  | Panics => False
  end.
Proof.
  induction pks as [| pk rest IH]; intros r gs Hinv; cbn [range_pks].
  - split; [exact Hinv | split; reflexivity].
  - destruct gs; cbn [negb].
    + destruct Hinv as (Ho & Hc & Hp & Hs & Hconf).
      unfold send_packet. rewrite Hp.
      match goal with |- context [range_pks rest ?r1 true] => specialize (IH r1 true) end.
      unfold loop_inv in IH. cbn [once close packets spawn login_seen] in IH.
      match type of IH with ?P -> _ => assert (H : P) by (repeat split; assumption) end.
      specialize (IH H).
      destruct (range_pks rest _ true); exact IH.
    + destruct (handleLoginSequence_inv pk r Hinv)
        as (started & err & r' & -> & Hpf & Hver & Hres).
      destruct err as [e |]; [exact Hres |].
      specialize (IH r' started Hres).
      destruct (range_pks rest r' started) as [r'' st | |]; [| exact IH | exact IH].
      destruct IH as (H1 & H2 & H3). split; [exact H1 | split; congruence].
Qed.

Lemma deferred_Close_end r log :
  once r = false -> close r = Open -> packets r = Open ->
  (spawn r = Closed /\ confirmed (login_seen r)
   \/ spawn r = Open /\ sent r = [] /\ ~ confirmed (login_seen r)
      /\ (refused (login_seen r) -> In mismatch log)) ->
  exists r', deferred_Close r log = Returned r' log /\ loop_end r' log.
Proof.
  intros Ho Hc Hp H. unfold deferred_Close, Close. rewrite Ho, Hc, Hp. cbn [close_chan].
  eexists. split; [reflexivity |]. unfold loop_end. cbn. split; [reflexivity | exact H].
Qed.

Lemma loop_inv_end r gs log :
  loop_inv r gs ->
  exists r', deferred_Close r log = Returned r' log /\ loop_end r' log.
Proof.
  intros (Ho & Hc & Hp & H). apply deferred_Close_end; try assumption.
  destruct gs.
  - left. exact H.
  - right. destruct H as (Hs & Hsent & Hnc & _).
    destruct (no_confirmation_not_confirmed _ Hnc) as [H1 H2].
    repeat split; try assumption. intros Hr. contradiction.
Qed.

Lemma stop_inv_end r e log :
  stop_inv r [e] ->
  exists r', deferred_Close r (log ++ [e]) = Returned r' (log ++ [e])
             /\ loop_end r' (log ++ [e]).
Proof.
  intros (Ho & Hc & Hp & Hs & Hsent & Hnc & Hr). apply deferred_Close_end; try assumption.
  right. repeat split; try assumption.
  intros H. apply in_or_app. right. apply Hr. exact H.
Qed.

Lemma loop_inv_set_packetF r gs s : loop_inv r gs -> loop_inv (set_packetF r s) gs.
Proof. intros H. exact H. Qed.

(** [loop] returns, and ends as [loop_end] tells. *)
Lemma loop_fuel_end : forall fuel r gs log,
  loop_inv r gs ->
  (length (packetF r) < fuel)%nat ->
  exists r' log', loop_fuel fuel r gs log = Returned r' log' /\ loop_end r' log'.
Proof.
  induction fuel as [| fuel IH]; intros r gs log Hinv Hfuel; [lia |].
  cbn [loop_fuel].
  destruct (readPacket (ver r) (packetF r)) as [[[pl toServer] err] s'] eqn:E.
  pose proof (loop_inv_set_packetF r gs s' Hinv) as Hinv'.
  destruct pl as [p |].
  2: { destruct (loop_inv_end _ _ (log ++ log_if err) Hinv') as (r' & H1 & H2).
       exists r', (log ++ log_if err). split; assumption. }
  apply readPacket_consumes in E.
  destruct (if toServer then (LocalAddr, RemoteAddr) else (RemoteAddr, LocalAddr))
    as [src dst].
  destruct (minecraft_ParseData p src dst) as [pkData | e].
  2: { destruct (loop_inv_end _ _ ((log ++ log_if err) ++ [e]) Hinv') as (r' & H1 & H2).
       exists r', ((log ++ log_if err) ++ [e]). split; assumption. }
  destruct (Decode pkData) as [pks | e].
  2: { apply IH; [exact Hinv' | cbn; lia]. }
  pose proof (range_pks_inv pks _ gs Hinv') as Hr.
  destruct (range_pks pks (set_packetF r s') gs) as [r' started | r' e |].
  - destruct Hr as (H1 & H2 & H3). apply IH; [exact H1 |]. rewrite H2. cbn. lia.
  - destruct (stop_inv_end r' e (log ++ log_if err) Hr) as (r'' & H1 & H2).
    exists r'', ((log ++ log_if err) ++ [e]). split; assumption.
  - contradiction.
Qed.

Lemma just_opened_loop_inv r : just_opened r -> loop_inv r false.
Proof.
  intros (Hp & Hsent & Hs & Hc & Ho & Hg & Hl). unfold loop_inv.
  rewrite Hl, Hg. repeat split; assumption.
Qed.

End LoopFacts.


(** ** Producers under [dumpLock] *)

Import Producers.

Section ProducerFacts.

Lemma nth_error_replace_nth_same {A} (x : A) l : forall i,
  (i < length l)%nat -> nth_error (replace_nth i x l) i = Some x.
Proof.
  induction l as [| h t IH]; intros i Hi; [cbn in Hi; lia |].
  destruct i as [| i]; [reflexivity |]. cbn in Hi |- *. apply IH. lia.
Qed.

Lemma nth_error_replace_nth_other {A} (x : A) l : forall i j,
  i <> j -> nth_error (replace_nth i x l) j = nth_error l j.
Proof.
  induction l as [| h t IH]; intros i j Hij; [destruct i; reflexivity |].
  destruct i as [| i], j as [| j]; try reflexivity; [contradiction |].
  cbn. apply IH. congruence.
Qed.

Lemma length_replace_nth {A} (x : A) l : forall i,
  length (replace_nth i x l) = length l.
Proof.
  induction l as [| h t IH]; intros i; [destruct i; reflexivity |].
  destruct i as [| i]; cbn; [reflexivity |]. rewrite IH. reflexivity.
Qed.

Lemma calls_of_app i o1 o2 : calls_of i (o1 ++ o2) = calls_of i o1 ++ calls_of i o2.
Proof. unfold calls_of. rewrite filter_app, map_app. reflexivity. Qed.

Lemma calls_of_one_same i c : calls_of i [(i, c)] = [pair_of c].
Proof. unfold calls_of. cbn. rewrite Nat.eqb_refl. reflexivity. Qed.

Lemma calls_of_one_other i j c : i <> j -> calls_of j [(i, c)] = [].
Proof.
  intros H. unfold calls_of. cbn.
  destruct (Nat.eqb_spec i j) as [Heq | _]; [contradiction | reflexivity].
Qed.

Lemma written_at_AtUnlock now d pl : written_at AtUnlock now (d, pl) = wire_frame now d pl.
Proof. reflexivity. Qed.

(** A statement of the producer that holds the lock, on a stream that
    accepts every write: either it stays in the call and the stream
    holds what [written_at] tells, or it was the unlock. *)
Lemma step_producer_holder now0 now p o d pl rest :
  todo p = (d, pl) :: rest ->
  pc p <> Idle ->
  padding_ok (pc p) (d, pl) ->
  (exists l' now',
     step_producer now p (mkWriter (o ++ written_at (pc p) now0 (d, pl)) []) true =
       Some (mkProducer l' (todo p),
             mkWriter (o ++ written_at l' now' (d, pl)) [], true)
     /\ l' <> Idle /\ padding_ok l' (d, pl))
  \/ (pc p = AtUnlock
      /\ forall f, step_producer now p f true = Some (mkProducer Idle rest, f, false)).
Proof.
  destruct p as [l td]. cbn [todo pc]. intros -> Hl Hpad.
  unfold step_producer. cbn [todo pc].
  unfold binary_Write_uint32, binary_Write_bool, binary_Write_int64, bind, ret.
  destruct l as [| | | | | | n | |]; try contradiction.
  - left. exists AtSize, now0. rewrite io_Write_whole. cbn [snd written_at fst].
    rewrite app_nil_r. repeat split; discriminate.
  - left. exists AtDirection, now0. rewrite io_Write_whole, le_split_uint32.
    cbn [snd written_at fst]. rewrite <- !app_assoc. repeat split; discriminate.
  - left. exists AtTime, now0. rewrite io_Write_whole.
    cbn [snd written_at fst]. rewrite <- !app_assoc. repeat split; discriminate.
  - left. exists AtPayload, now. rewrite io_Write_whole.
    cbn [snd written_at fst]. rewrite <- !app_assoc. repeat split; discriminate.
  - left. exists (AtPadding (Z.of_nat (length pl))), now0. rewrite io_Write_whole.
    cbn [snd written_at fst]. rewrite <- !app_assoc. repeat split; discriminate.
  - left. exists AtTrailer, now0. cbn [padding_ok snd] in Hpad. subst n.
    pose proof (uint32_le (Z.of_nat (length pl)) (Nat2Z.is_nonneg _)) as Hle.
    destruct (Z.ltb_spec (Z.of_nat (length pl)) (uint32 (Z.of_nat (length pl))))
      as [Hlt | _]; [lia |].
    repeat split; discriminate.
  - left. exists AtUnlock, now0. rewrite io_Write_whole.
    cbn [snd written_at fst]. rewrite <- !app_assoc. repeat split; discriminate.
  - right. split; [reflexivity |]. intros f. reflexivity.
Qed.

(** Each statement keeps [lock_inv]. *)
Lemma step_lock_inv programs s order i now s' :
  lock_inv programs s order ->
  step i now s = Some s' ->
  exists order', lock_inv programs s' order'.
Proof.
  intros (Hfaults & Hlen & Hprog & Hbound & Hlock).
  unfold step.
  destruct (nth_error (producers s) i) as [p |] eqn:Hp; [| discriminate].
  destruct (step_producer now p (stream s) (dumpLock s)) as [[[p' f'] l'] |] eqn:Hstep;
    [| discriminate].
  intros Hs'. injection Hs' as <-.
  assert (Hi : (i < length (producers s))%nat).
  { apply nth_error_Some. rewrite Hp. discriminate. }
  destruct s as [[o fl] locked ps]. cbn [stream dumpLock producers faults out] in *.
  subst fl.
  destruct locked.
  - (* the lock is held *)
    destruct Hlock as (i0 & p0 & now0 & [d pl] & rest & Hp0 & Htodo & Hpc & Hpad & Hout & Hidle).
    destruct (Nat.eq_dec i i0) as [-> | Hne].
    2: { specialize (Hidle i p Hne Hp).
         unfold step_producer in Hstep. rewrite Hidle in Hstep.
         destruct (todo p) as [| [d' pl'] rest']; discriminate. }
    rewrite Hp in Hp0. injection Hp0 as <-.
    subst o.
    destruct (step_producer_holder now0 now p (capture (map snd order)) d pl rest
                Htodo Hpc Hpad)
      as [(l1 & now1 & Hst & Hl1 & Hpad1) | (Hunlock & Hst)].
    + rewrite Hst in Hstep. injection Hstep as <- <- <-.
      exists order. unfold lock_inv. cbn [stream dumpLock producers faults out].
      split; [reflexivity |].
      split; [rewrite length_replace_nth; exact Hlen |].
      split.
      { intros j q Hq. destruct (Nat.eq_dec i0 j) as [<- | Hj].
        - rewrite nth_error_replace_nth_same in Hq by exact Hi.
          injection Hq as <-. cbn [todo]. apply Hprog. exact Hp.
        - rewrite nth_error_replace_nth_other in Hq by exact Hj. apply Hprog. exact Hq. }
      split; [exact Hbound |].
      exists i0, (mkProducer l1 (todo p)), now1, (d, pl), rest.
      split; [apply nth_error_replace_nth_same; exact Hi |].
      split; [exact Htodo |].
      split; [exact Hl1 |].
      split; [exact Hpad1 |].
      split; [reflexivity |].
      intros j q Hj Hq. rewrite nth_error_replace_nth_other in Hq by congruence.
      apply (Hidle j q Hj Hq).
    + rewrite Hst in Hstep. injection Hstep as <- <- <-.
      exists (order ++ [(i0, mkCall now0 d pl)]).
      unfold lock_inv. cbn [stream dumpLock producers faults out].
      split; [reflexivity |].
      split; [rewrite length_replace_nth; exact Hlen |].
      split.
      { intros j q Hq. rewrite calls_of_app.
        destruct (Nat.eq_dec i0 j) as [<- | Hj].
        - rewrite nth_error_replace_nth_same in Hq by exact Hi.
          injection Hq as <-. cbn [todo]. rewrite calls_of_one_same.
          rewrite (Hprog i0 p Hp), Htodo, <- app_assoc. reflexivity.
        - rewrite nth_error_replace_nth_other in Hq by exact Hj.
          rewrite calls_of_one_other by exact Hj. rewrite app_nil_r.
          apply Hprog. exact Hq. }
      split.
      { intros x Hx. apply in_app_or in Hx. destruct Hx as [Hx | [<- | []]].
        - apply Hbound. exact Hx.
        - cbn [fst]. lia. }
      split.
      { rewrite map_app, capture_app, Hunlock. cbn [map snd].
        rewrite written_at_AtUnlock. f_equal.
        rewrite capture_cons. cbn [at_ms toServer payload].
        change (capture []) with (@nil byte). rewrite app_nil_r. reflexivity. }
      intros j q Hq. destruct (Nat.eq_dec i0 j) as [<- | Hj].
      * rewrite nth_error_replace_nth_same in Hq by exact Hi. injection Hq as <-. reflexivity.
      * rewrite nth_error_replace_nth_other in Hq by exact Hj. apply (Hidle j q); congruence.
  - (* the lock is free *)
    destruct Hlock as (Hout & Hidle).
    unfold step_producer in Hstep. rewrite (Hidle i p Hp) in Hstep.
    destruct (todo p) as [| [d pl] rest] eqn:Htodo; [discriminate |].
    injection Hstep as <- <- <-.
    exists order. unfold lock_inv. cbn [stream dumpLock producers faults out].
    split; [reflexivity |].
    split; [rewrite length_replace_nth; exact Hlen |].
    split.
    { intros j q Hq. destruct (Nat.eq_dec i j) as [<- | Hj].
      - rewrite nth_error_replace_nth_same in Hq by exact Hi.
        injection Hq as <-. cbn [todo]. rewrite <- Htodo. apply Hprog. exact Hp.
      - rewrite nth_error_replace_nth_other in Hq by exact Hj. apply Hprog. exact Hq. }
    split; [exact Hbound |].
    exists i, (mkProducer AtMagic ((d, pl) :: rest)), now, (d, pl), rest.
    split; [apply nth_error_replace_nth_same; exact Hi |].
    split; [reflexivity |].
    split; [discriminate |].
    split; [exact I |].
    split; [cbn [pc written_at]; rewrite app_nil_r; exact Hout |].
    intros j q Hj Hq. rewrite nth_error_replace_nth_other in Hq by congruence.
    apply (Hidle j q Hq).
Qed.

Lemma start_lock_inv programs : lock_inv programs (start programs) [].
Proof.
  unfold lock_inv, start. cbn [stream dumpLock producers faults out fresh].
  split; [reflexivity |].
  split; [apply length_map |].
  split.
  { intros i p Hp. rewrite nth_error_map in Hp.
    destruct (nth_error programs i) as [prog |]; [| discriminate].
    injection Hp as <-. reflexivity. }
  split; [intros x [] |].
  split; [reflexivity |].
  intros j q Hq. rewrite nth_error_map in Hq.
  destruct (nth_error programs j); [| discriminate]. injection Hq as <-. reflexivity.
Qed.

Lemma run_lock_inv programs schedule : forall s order s',
  lock_inv programs s order ->
  run schedule s = Some s' ->
  exists order', lock_inv programs s' order'.
Proof.
  induction schedule as [| [i now] rest IH]; intros s order s' Hinv Hrun.
  - injection Hrun as <-. exists order. exact Hinv.
  - cbn [run] in Hrun. destruct (step i now s) as [s1 |] eqn:Hstep; [| discriminate].
    destruct (step_lock_inv _ _ _ _ _ _ Hinv Hstep) as (order1 & Hinv1).
    apply (IH s1 order1 s' Hinv1 Hrun).
Qed.

End ProducerFacts.

Section Counting.

Lemma list_sum_map_add {A} (f g : A -> nat) l :
  list_sum (map (fun x => (f x + g x)%nat) l) =
    (list_sum (map f l) + list_sum (map g l))%nat.
Proof.
  assert (E : forall a t, list_sum (a :: t) = (a + list_sum t)%nat) by reflexivity.
  induction l as [| a l IH]; [reflexivity |].
  cbn [map]. rewrite !E, IH. lia.
Qed.

Lemma list_sum_indicator i : forall n a,
  list_sum (map (fun j => if Nat.eqb i j then 1%nat else 0%nat) (seq a n)) =
    if ((a <=? i) && (i <? a + n))%nat then 1%nat else 0%nat.
Proof.
  assert (E : forall a t, list_sum (a :: t) = (a + list_sum t)%nat) by reflexivity.
  induction n as [| n IH]; intros a; cbn [seq map].
  - destruct (Nat.leb_spec a i), (Nat.ltb_spec i (a + 0)); cbn; lia.
  - rewrite E, IH.
    destruct (Nat.eqb_spec i a), (Nat.leb_spec a i), (Nat.ltb_spec i (a + S n)),
      (Nat.leb_spec (S a) i), (Nat.ltb_spec i (S a + n)); cbn; lia.
Qed.

(** Calls tagged with producers below [n] are as many as the calls of
    each of these producers together. *)
Lemma length_by_producer n (order : list (nat * Call)) :
  (forall x, In x order -> (fst x < n)%nat) ->
  length order = list_sum (map (fun i => length (calls_of i order)) (seq 0 n)).
Proof.
  induction order as [| [i c] rest IH]; intros Hb.
  - cbn. induction (seq 0 n) as [| a l IHl]; [reflexivity | exact IHl].
  - assert (Hi : (i < n)%nat) by (apply (Hb (i, c)); left; reflexivity).
    rewrite (map_ext (fun j => length (calls_of j ((i, c) :: rest)))
               (fun j => ((if Nat.eqb i j then 1 else 0) + length (calls_of j rest))%nat)).
    2: { intros j. unfold calls_of. cbn [filter fst].
         destruct (Nat.eqb i j); reflexivity. }
    rewrite list_sum_map_add, list_sum_indicator, <- IH.
    + destruct (Nat.leb_spec 0 i), (Nat.ltb_spec i (0 + n)); cbn; lia.
    + intros x Hx. apply Hb. right. exact Hx.
Qed.

Lemma map_nth_seq {A} (d : A) l :
  map (fun i => nth i l d) (seq 0 (length l)) = l.
Proof.
  induction l as [| a l IH]; [reflexivity |].
  cbn [length seq map nth]. f_equal.
  rewrite <- seq_shift, map_map. exact IH.
Qed.

Lemma list_sum_lengths {A} (m : nat) (ls : list (list A)) :
  Forall (fun l => length l = m) ls ->
  list_sum (map (@length A) ls) = (length ls * m)%nat.
Proof.
  assert (E : forall a t, list_sum (a :: t) = (a + list_sum t)%nat) by reflexivity.
  induction 1 as [| l ls Hl _ IH]; [reflexivity |].
  cbn [map length]. rewrite E, IH, Hl. lia.
Qed.

End Counting.

Section ProducersEnd.

Lemma finished_producer_spec p :
  finished_producer p = true -> pc p = Idle /\ todo p = [].
Proof.
  unfold finished_producer. destruct (pc p); try discriminate.
  destruct (todo p); [split; reflexivity | discriminate].
Qed.

Lemma finished_spec s i p :
  finished s = true -> nth_error (producers s) i = Some p ->
  pc p = Idle /\ todo p = [].
Proof.
  unfold finished. rewrite forallb_forall. intros H Hp.
  apply finished_producer_spec, H. apply (nth_error_In _ _ Hp).
Qed.

(** When every producer is through, the stream is the capture of the
    calls in the order of their unlocks, and the calls of each producer
    are there in the order of its program. *)
Lemma finished_lock_inv programs s order :
  lock_inv programs s order ->
  finished s = true ->
  out (stream s) = capture (map snd order)
  /\ (forall x, In x order -> (fst x < length programs)%nat)
  /\ (forall i prog, nth_error programs i = Some prog -> calls_of i order = prog).
Proof.
  intros (_ & Hlen & Hprog & Hbound & Hlock) Hfin.
  split.
  - destruct (dumpLock s).
    + destruct Hlock as (i & p & now & c & rest & Hp & _ & Hpc & _).
      destruct (finished_spec s i p Hfin Hp) as [Hidle _]. contradiction.
    + apply Hlock.
  - split; [exact Hbound |].
    intros i prog Hi.
    assert (Hlt : (i < length (producers s))%nat).
    { rewrite Hlen. apply nth_error_Some. rewrite Hi. discriminate. }
    destruct (nth_error (producers s) i) as [p |] eqn:Hp.
    2: { apply nth_error_None in Hp. lia. }
    destruct (finished_spec s i p Hfin Hp) as [_ Htodo].
    specialize (Hprog i p Hp). rewrite Htodo, app_nil_r, Hi in Hprog.
    injection Hprog as ->. reflexivity.
Qed.

(** While a producer has a call left, some producer can move: the one
    that holds the lock, or any that wants it when it is free. *)
Lemma lock_inv_progress programs s order :
  lock_inv programs s order ->
  finished s = false ->
  exists i, forall now, step i now s <> None.
Proof.
  intros (Hfaults & Hlen & Hprog & Hbound & Hlock) Hfin.
  destruct (dumpLock s) eqn:Hl.
  - destruct Hlock as (i & p & now0 & c & rest & Hp & Htodo & Hpc & _).
    exists i. intros now. unfold step. rewrite Hp, Hl.
    unfold step_producer. rewrite Htodo. destruct c as [d pl].
    destruct (pc p); try contradiction; try discriminate.
    + destruct (io_Write pl (stream s)) as [[n e] f']. discriminate.
    + destruct (n <? uint32 (Z.of_nat (length pl))); discriminate.
  - destruct Hlock as (_ & Hidle).
    unfold finished in Hfin.
    assert (Hex : exists p, In p (producers s) /\ finished_producer p = false).
    { clear - Hfin. induction (producers s) as [| q l IH]; [discriminate |].
      cbn [forallb] in Hfin. destruct (finished_producer q) eqn:Hq.
      - destruct (IH Hfin) as (p & Hin & Hp). exists p. split; [right |]; assumption.
      - exists q. split; [left; reflexivity | exact Hq]. }
    destruct Hex as (p & Hin & Hnot).
    destruct (In_nth_error _ _ Hin) as (i & Hp).
    exists i. intros now. unfold step. rewrite Hp, Hl.
    unfold step_producer, finished_producer in *. rewrite (Hidle i p Hp) in *.
    destruct (todo p) as [| [d pl] rest]; discriminate.
Qed.

(** So the producers are never stuck before they are all through. *)
Lemma producers_never_stuck programs schedule s :
  run schedule (start programs) = Some s ->
  finished s = false ->
  exists i, forall now, step i now s <> None.
Proof.
  intros Hrun Hfin.
  destruct (run_lock_inv programs schedule _ [] s (start_lock_inv programs) Hrun)
    as (order & Hinv).
  apply (lock_inv_progress programs s order Hinv Hfin).
Qed.

End ProducersEnd.

(** C9, as amended: let [N] producers each make [M] calls of
    [dumpPacket] on one fresh stream, every payload shorter than 2^32
    bytes, the statements of the calls interleaved in whatever way
    [dumpLock] allows.  When all are through, the stream is a sequence of
    whole frames, one for each call and none mixed with another; reading
    it back gives exactly these [N * M] frames; and the frames of each
    producer come in the order of that producer's calls. *)
Theorem producers_frames (programs : list (list (bool * list byte))) (M : nat)
  (schedule : list (nat * Z)) (s : System) :
  Forall (fun prog => length prog = M) programs ->
  Forall (Forall (fun c => Z.of_nat (length (snd c)) < 2 ^ 32)) programs ->
  run schedule (start programs) = Some s ->
  finished s = true ->
  exists order : list (nat * Call),
    out (stream s) =
      concat (map (fun x => wire_frame (at_ms (snd x)) (toServer (snd x))
                              (payload (snd x))) order)
    /\ read_frames currentReplayVersion (out (stream s)) =
         Some (map (fun x => pair_of (snd x)) order, None)
    /\ length order = (length programs * M)%nat
    /\ forall i prog, nth_error programs i = Some prog -> calls_of i order = prog.
Proof.
  intros HM Hfit Hrun Hfin.
  destruct (run_lock_inv programs schedule _ [] s (start_lock_inv programs) Hrun)
    as (order & Hinv).
  destruct (finished_lock_inv programs s order Hinv Hfin) as (Hout & Hbound & Hcalls).
  exists order.
  assert (Hfits : Forall fits_u32 (map snd order)).
  { apply Forall_forall. intros c Hc. apply in_map_iff in Hc.
    destruct Hc as ([i c'] & <- & Hx). cbn [snd].
    specialize (Hbound _ Hx). cbn [fst] in Hbound.
    destruct (nth_error programs i) as [prog |] eqn:Hi.
    2: { apply nth_error_None in Hi. lia. }
    rewrite Forall_forall in Hfit. specialize (Hfit prog (nth_error_In _ _ Hi)).
    rewrite Forall_forall in Hfit.
    apply (Hfit (pair_of c')).
    rewrite <- (Hcalls i prog Hi). unfold calls_of.
    apply (in_map (fun x => (toServer (snd x), payload (snd x)))
             (filter (fun x => Nat.eqb (fst x) i) order) (i, c')).
    apply filter_In. split; [exact Hx | apply Nat.eqb_refl]. }
  split; [rewrite Hout, capture_frames, map_map; reflexivity |].
  split.
  { rewrite Hout. unfold read_frames.
    rewrite read_frames_fuel_capture.
    - rewrite map_map. reflexivity.
    - unfold currentReplayVersion. lia.
    - exact Hfits.
    - pose proof (capture_length (map snd order)). lia. }
  split; [| exact Hcalls].
  rewrite (length_by_producer (length programs) order Hbound).
  rewrite <- (list_sum_lengths M programs HM).
  rewrite <- (map_nth_seq [] programs) at 2. rewrite map_map.
  f_equal. apply map_ext_in. intros i Hi. apply in_seq in Hi.
  destruct (nth_error programs i) as [prog |] eqn:Hp.
  2: { apply nth_error_None in Hp. lia. }
  rewrite (Hcalls i prog Hp). rewrite (nth_error_nth _ _ _ Hp). reflexivity.
Qed.

Lemma producers_frames_witness :
  exists order : list (nat * Call),
    out (stream two_by_two_end) =
      concat (map (fun x => wire_frame (at_ms (snd x)) (toServer (snd x))
                              (payload (snd x))) order)
    /\ read_frames currentReplayVersion (out (stream two_by_two_end)) =
         Some (map (fun x => pair_of (snd x)) order, None)
    /\ length order = (length two_by_two * 2)%nat
    /\ forall i prog, nth_error two_by_two i = Some prog -> calls_of i order = prog.
Proof.
  apply (producers_frames two_by_two 2 two_by_two_schedule two_by_two_end).
  - repeat constructor.
  - repeat constructor; cbn [snd length]; lia.
  - vm_compute. reflexivity.
  - vm_compute. reflexivity.
Defined.

Section Solo.

(** A producer that runs a whole call on its own does to the stream what
    [dumpPacket] does, whatever the stream accepts. *)
Lemma run_solo now d pl rest f :
  run (solo 0 now) (mkSystem f false [mkProducer Idle ((d, pl) :: rest)]) =
    Some (mkSystem (snd (dumpPacket now d pl f)) false [mkProducer Idle rest]).
Proof.
  unfold solo, dumpPacket, binary_Write_uint32, binary_Write_bool, binary_Write_int64,
    bind, ret.
  cbn [repeat run step nth_error producers stream dumpLock step_producer todo pc
       replace_nth].
  unfold binary_Write_uint32, binary_Write_bool, binary_Write_int64, bind, ret.
  destruct (io_Write leading_magic f) as [r1 f1]. cbn [snd].
  destruct (io_Write (le_split 4 (uint32 (Z.of_nat (length pl)))) f1) as [r2 f2]. cbn [snd].
  destruct (io_Write [bool_byte d] f2) as [r3 f3]. cbn [snd].
  destruct (io_Write (le_split 8 now) f3) as [r4 f4]. cbn [snd].
  destruct (io_Write pl f4) as [[n e] f5].
  cbn [repeat run step nth_error producers stream dumpLock step_producer todo pc
       replace_nth].
  destruct (n <? uint32 (Z.of_nat (length pl))).
  - cbn [repeat run step nth_error producers stream dumpLock step_producer todo pc
         replace_nth].
    destruct (io_Write (repeat Byte.x00 (Z.to_nat (uint32 (Z.of_nat (length pl)) - n))) f5)
      as [r6 f6]. cbn [snd].
    destruct (io_Write trailing_magic f6) as [r7 f7]. reflexivity.
  - cbn [repeat run step nth_error producers stream dumpLock step_producer todo pc
         replace_nth].
    destruct (io_Write trailing_magic f5) as [r7 f7]. reflexivity.
Qed.

End Solo.

(** C9, as stated, fails already for one producer and one call, when the
    payload has 2^32 bytes: the producer runs its call through, and the
    stream is read back as no frame and the error "wrong Magic2", not as
    one frame. *)
Lemma producers_huge :
  exists s,
    run (solo 0 0) (start [[(true, huge)]]) = Some s
    /\ finished s = true
    /\ read_frames currentReplayVersion (out (stream s)) =
         Some ([], Some (errors_New "wrong Magic2")).
Proof.
  exists (mkSystem (snd (dumpPacket 0 true huge fresh)) false [mkProducer Idle []]).
  split; [apply run_solo |].
  split; [reflexivity |].
  cbn [stream]. unfold fresh. rewrite dumpPacket_whole. cbn [snd out app].
  apply read_frames_huge.
Qed.

(** ** The scenarios of the login sequence, run *)

Section Scenarios.

(** Start-of-game declares id 7, the confirmation carries 8: the mismatch
    is logged, nothing is handed on, and the wait for the spawn fails. *)
Example replay_mismatched_login :
  Demo.replay Demo.mismatched_login =
    Some ([mismatch], [], Open, [Some (errors_New "do spawn")]).
Proof. reflexivity. Qed.

(** The confirmation carries the declared id 7: the spawn channel is
    closed and the packet after the login is handed on. *)
Example replay_matched_login :
  Demo.replay Demo.matched_login =
    Some ([], [OtherPacket 9 [Byte.x01]], Closed,
          [Some (errors_New "do spawn"); None]).
Proof. reflexivity. Qed.

(** A file that begins with [replayMagic] and is not a zip archive is
    refused all the same. *)
Example open_raw_capture :
  header_magic Demo.raw_capture = replayMagic
  /\ createReplayConnector (deps := Demo.plain_deps)
       (Demo.disk Demo.raw_capture) "capture.pcap2" = (None, Some zip_ErrFormat).
Proof. split; reflexivity. Qed.

End Scenarios.

(** * More of the replay reader *)

Section ReadPacketFacts.

Lemma io_ReadFull_inv n s bs err s' :
  io_ReadFull n s = ((bs, err), s') ->
  (err = None /\ s = bs ++ s' /\ length bs = n)
  \/ (err <> None /\ s' = []).
Proof.
  unfold io_ReadFull. destruct n as [| n].
  - intros H. injection H as <- <- <-. left. repeat split.
  - destruct s as [| a s].
    + intros H. injection H as <- <- <-. right. split; [discriminate | reflexivity].
    + destruct (length (a :: s) <? S n)%nat eqn:Hlt.
      * intros H. injection H as <- <- <-. right. split; [discriminate | reflexivity].
      * apply Nat.ltb_ge in Hlt.
        intros H. injection H as <- <- <-. left. split; [reflexivity |].
        split; [symmetry; apply (firstn_skipn (S n) (a :: s)) |].
        cbn [length] in *. rewrite length_firstn. lia.
Qed.

Lemma binary_Read_uint32_inv old s v err s' :
  binary_Read_uint32 old s = ((v, err), s') ->
  (err = None /\ exists bs, s = bs ++ s' /\ length bs = 4%nat /\ v = le_combine bs)
  \/ (err <> None /\ s' = [] /\ v = old).
Proof.
  unfold binary_Read_uint32, bind.
  destruct (io_ReadFull 4 s) as [[bs e] s1] eqn:E.
  apply io_ReadFull_inv in E. destruct E as [(-> & Hs & Hl) | (He & ->)].
  - intros H. injection H as <- <- <-. left. split; [reflexivity |].
    exists bs. repeat split; assumption.
  - destruct e as [e |]; [| contradiction].
    intros H. injection H as <- <- <-. right. repeat split. discriminate.
Qed.

Lemma binary_Read_bool_inv old s v err s' :
  binary_Read_bool old s = ((v, err), s') ->
  (err = None /\ exists b, s = b :: s' /\ v = negb (byte.unsigned b =? 0))
  \/ (err <> None /\ s' = []).
Proof.
  unfold binary_Read_bool, bind.
  destruct (io_ReadFull 1 s) as [[bs e] s1] eqn:E.
  apply io_ReadFull_inv in E. destruct E as [(-> & Hs & Hl) | (He & ->)].
  - intros H. injection H as <- <- <-. left. split; [reflexivity |].
    destruct bs as [| b [| c bs]]; try discriminate.
    exists b. split; [exact Hs |]. rewrite le_combine_1. reflexivity.
  - destruct e as [e |]; [| contradiction].
    intros H. injection H as <- <- <-. right. split; [discriminate | reflexivity].
Qed.

Lemma binary_Read_int64_inv old s v err s' :
  binary_Read_int64 old s = ((v, err), s') ->
  (err = None /\ exists bs, s = bs ++ s' /\ length bs = 8%nat)
  \/ (err <> None /\ s' = []).
Proof.
  unfold binary_Read_int64, bind.
  destruct (io_ReadFull 8 s) as [[bs e] s1] eqn:E.
  apply io_ReadFull_inv in E. destruct E as [(-> & Hs & Hl) | (He & ->)].
  - intros H. injection H as <- <- <-. left. split; [reflexivity |].
    exists bs. split; assumption.
  - destruct e as [e |]; [| contradiction].
    intros H. injection H as <- <- <-. right. split; [discriminate | reflexivity].
Qed.

Lemma le_combine_magic bs v :
  length bs = 4%nat -> le_combine bs = v -> bs = le_split 4 v.
Proof. intros Hl <-. symmetry. apply split_le_combine'. exact Hl. Qed.

End ReadPacketFacts.

(** X1.  [readPacket] hands out a payload only for a whole, well-formed
    frame: the stream then began with the leading magic, the length of
    the payload as a u32, a direction byte, the timestamp (from version 2
    on), the payload itself and the trailing magic, what follows is left
    on the stream, and no error is returned. *)
Theorem readPacket_sound (ver : Z) (s : Reader) (p : list byte)
  (toServer : bool) (err : option error) (s' : Reader) :
  readPacket ver s = ((Some p, toServer, err), s') ->
  err = None
  /\ exists d time_field,
       s = frame_header ver (Z.of_nat (length p)) d time_field
             ++ p ++ trailing_magic ++ s'
       /\ toServer = negb (byte.unsigned d =? 0)
       /\ Z.of_nat (length p) < 2 ^ 32
       /\ length time_field = (if 2 <=? ver then 8%nat else 0%nat).
Proof.
  unfold readPacket. unfold bind at 1.
  destruct (binary_Read_uint32 0 s) as [[magic e1] s1] eqn:E1.
  destruct e1 as [e0 |]; [destruct e0; discriminate |].
  destruct (Z.eqb_spec magic 2863311530) as [Hm | _]; [| discriminate]. cbn [negb].
  unfold bind at 1. destruct (binary_Read_uint32 0 s1) as [[len e2] s2] eqn:E2.
  unfold bind at 1. destruct (binary_Read_bool false s2) as [[dir e3] s3] eqn:E3.
  unfold bind at 1.
  destruct ((if 2 <=? ver then binary_Read_int64 0;;; ret tt else ret tt) s3)
    as [u s4] eqn:E4.
  unfold bind at 1. destruct (io_ReadFull (Z.to_nat len) s4) as [[pl e5] s5] eqn:E5.
  destruct e5 as [e5 |]; [discriminate |].
  destruct (Z.eqb_spec (Z.of_nat (length pl)) len) as [Hlen | _]; [| discriminate].
  cbn [negb].
  unfold bind at 1. destruct (binary_Read_uint32 0 s5) as [[m2 e6] s6] eqn:E6.
  destruct (Z.eqb_spec m2 3149642683) as [Hm2 | _]; [| discriminate]. cbn [negb].
  unfold ret. intros H. injection H as <- <- <- <-.
  split; [reflexivity |].
  (* the trailing magic was read *)
  apply binary_Read_uint32_inv in E6.
  destruct E6 as [(_ & b6 & -> & Hl6 & ->) | (_ & _ & ->)]; [| discriminate].
  apply io_ReadFull_inv in E5.
  destruct E5 as [(_ & -> & Hlp) | (He & _)]; [| contradiction].
  (* so was every field before it *)
  assert (E4' : exists ts, s3 = ts ++ pl ++ b6 ++ s6
                           /\ length ts = (if 2 <=? ver then 8%nat else 0%nat)).
  { destruct (2 <=? ver).
    - unfold bind, ret in E4.
      destruct (binary_Read_int64 0 s3) as [[v e] s3'] eqn:E. injection E4 as _ ->.
      apply binary_Read_int64_inv in E.
      destruct E as [(_ & ts & -> & Hts) | (_ & Hnil)].
      + exists ts. split; [reflexivity | exact Hts].
      + apply (f_equal (@length byte)) in Hnil.
        rewrite !length_app in Hnil. cbn [length] in Hnil. lia.
    - unfold ret in E4. injection E4 as _ <-. exists []. split; reflexivity. }
  destruct E4' as (ts & -> & Hts).
  apply binary_Read_bool_inv in E3.
  destruct E3 as [(_ & b & -> & ->) | (_ & Hnil)].
  2: { apply (f_equal (@length byte)) in Hnil.
       rewrite !length_app in Hnil. cbn [length] in Hnil. lia. }
  apply binary_Read_uint32_inv in E2.
  destruct E2 as [(_ & b2 & -> & Hl2 & ->) | (_ & Hnil & _)]; [| discriminate].
  apply binary_Read_uint32_inv in E1.
  destruct E1 as [(_ & b1 & -> & Hl1 & ->) | (Hc & _)]; [| contradiction].
  exists b, ts.
  pose proof (le_combine_bound b2) as Hb2. rewrite Hl2 in Hb2.
  change (2 ^ (8 * Z.of_nat 4)) with (2 ^ 32) in Hb2.
  split.
  - unfold frame_header.
    rewrite (le_combine_magic b1 _ Hl1 Hm), (le_combine_magic b6 _ Hl6 Hm2).
    rewrite Hlen, (split_le_combine' b2 4 Hl2).
    change (le_split 4 2863311530) with leading_magic.
    change (le_split 4 3149642683) with trailing_magic.
    destruct (2 <=? ver).
    + rewrite <- !app_assoc. reflexivity.
    + destruct ts; [| discriminate]. rewrite <- !app_assoc. reflexivity.
  - split; [reflexivity |]. split; [lia | exact Hts].
Qed.

Lemma readPacket_sound_witness :
  @None error = None
  /\ exists d time_field,
       wire_frame 5 true [Byte.x68; Byte.x69] ++ [Byte.x07] =
         frame_header 3 (Z.of_nat (length [Byte.x68; Byte.x69])) d time_field
           ++ [Byte.x68; Byte.x69] ++ trailing_magic ++ [Byte.x07]
       /\ true = negb (byte.unsigned d =? 0)
       /\ Z.of_nat (length [Byte.x68; Byte.x69]) < 2 ^ 32
       /\ length time_field = (if 2 <=? 3 then 8%nat else 0%nat).
Proof.
  apply (readPacket_sound 3 (wire_frame 5 true [Byte.x68; Byte.x69] ++ [Byte.x07])
           [Byte.x68; Byte.x69] true None [Byte.x07]).
  vm_compute. reflexivity.
Defined.

(** X2.  [readPacket] reports the end of the log -- a nil payload and a
    nil error -- on the empty stream and on no other: whatever is left
    over that is not a whole frame is an error. *)
Theorem readPacket_clean_end (ver : Z) (s : Reader) :
  (exists toServer s', readPacket ver s = ((None, toServer, None), s')) <-> s = [].
Proof.
  split.
  2: { intros ->. exists false, []. reflexivity. }
  intros (toServer & s' & H). revert H.
  unfold readPacket. unfold bind at 1.
  destruct (binary_Read_uint32 0 s) as [[magic e1] s1] eqn:E1.
  destruct e1 as [e0 |].
  - unfold binary_Read_uint32, bind in E1.
    destruct (io_ReadFull 4 s) as [[bs e] s0] eqn:E.
    destruct e as [e |]; [| discriminate]. injection E1 as _ <- _.
    destruct e; try discriminate. intros _.
    unfold io_ReadFull in E. destruct s as [| a s]; [reflexivity |].
    destruct (length (a :: s) <? 4)%nat; discriminate.
  - destruct (negb (magic =? 2863311530)); [discriminate |].
    unfold bind at 1. destruct (binary_Read_uint32 0 s1) as [[len e2] s2].
    unfold bind at 1. destruct (binary_Read_bool false s2) as [[dir e3] s3].
    unfold bind at 1.
    destruct ((if 2 <=? ver then binary_Read_int64 0;;; ret tt else ret tt) s3) as [u s4].
    unfold bind at 1. destruct (io_ReadFull (Z.to_nat len) s4) as [[pl e5] s5].
    destruct e5 as [e5 |]; [discriminate |].
    destruct (negb (Z.of_nat (length pl) =? len)); [discriminate |].
    unfold bind at 1. destruct (binary_Read_uint32 0 s5) as [[m2 e6] s6].
    destruct (negb (m2 =? 3149642683)); discriminate.
Qed.

(** X3.  A stream whose first four bytes are not the leading magic is
    refused with "wrong Magic"; the four bytes are gone from the stream
    and nothing else is read. *)
Theorem readPacket_wrong_Magic (ver : Z) (bs rest : list byte) :
  length bs = 4%nat ->
  bs <> leading_magic ->
  readPacket ver (bs ++ rest) = ((None, false, Some (errors_New "wrong Magic")), rest).
Proof.
  intros Hl Hne. unfold readPacket. unfold bind at 1.
  rewrite binary_Read_uint32_app by exact Hl.
  destruct (Z.eqb_spec (le_combine bs) 2863311530) as [Heq | _]; [| reflexivity].
  exfalso. apply Hne. apply (le_combine_magic bs _ Hl Heq).
Qed.

Lemma readPacket_wrong_Magic_witness :
  readPacket 3 (replayMagic ++ [Byte.x03; Byte.x00; Byte.x00; Byte.x00]) =
    ((None, false, Some (errors_New "wrong Magic")),
     [Byte.x03; Byte.x00; Byte.x00; Byte.x00]).
Proof.
  apply (readPacket_wrong_Magic 3 replayMagic [Byte.x03; Byte.x00; Byte.x00; Byte.x00]).
  - reflexivity.
  - discriminate.
Defined.

(** X4.  After a whole header and the whole payload, anything but the
    trailing magic -- other bytes, or fewer than four -- makes
    [readPacket] drop the payload and return "wrong Magic2". *)
Theorem readPacket_wrong_Magic2 (ver : Z) (d : byte) (time_field p rest : list byte) :
  length time_field = 8%nat ->
  Z.of_nat (length p) < 2 ^ 32 ->
  firstn 4 rest <> trailing_magic ->
  fst (readPacket ver
         (frame_header ver (Z.of_nat (length p)) d time_field ++ p ++ rest)) =
    (None, negb (byte.unsigned d =? 0), Some (errors_New "wrong Magic2")).
Proof.
  intros Ht Hp Hne.
  rewrite readPacket_header by exact Ht.
  rewrite uint32_small by lia. rewrite Nat2Z.id.
  cbv zeta. unfold bind at 1. rewrite io_ReadFull_app.
  rewrite Z.eqb_refl. cbn [negb].
  unfold bind at 1.
  destruct (binary_Read_uint32 0 rest) as [[m2 e] s6] eqn:E.
  apply binary_Read_uint32_inv in E.
  destruct E as [(_ & b & -> & Hl & ->) | (_ & _ & ->)]; [| reflexivity].
  destruct (Z.eqb_spec (le_combine b) 3149642683) as [Heq | _]; [| reflexivity].
  exfalso. apply Hne.
  rewrite <- Hl, firstn_app, Nat.sub_diag, firstn_all, firstn_O, app_nil_r.
  apply (le_combine_magic b _ Hl Heq).
Qed.

Lemma readPacket_wrong_Magic2_witness :
  fst (readPacket 3
         (frame_header 3 (Z.of_nat (length [Byte.x68; Byte.x69])) Byte.x01
            (le_split 8 5) ++ [Byte.x68; Byte.x69] ++ [Byte.xbb; Byte.xbb])) =
    (None, negb (byte.unsigned Byte.x01 =? 0), Some (errors_New "wrong Magic2")).
Proof.
  apply (readPacket_wrong_Magic2 3 Byte.x01 (le_split 8 5) [Byte.x68; Byte.x69]
           [Byte.xbb; Byte.xbb]).
  - reflexivity.
  - cbn [length]. lia.
  - discriminate.
Defined.

(** * More of the decode loop *)

Import Log.

Section LoopMore.
Context {deps : Deps}.

Lemma handleLoginSequence_trace pk r res r' :
  handleLoginSequence pk r = Some (res, r') ->
  login_seen r' = login_seen r ++ [pk] /\ sent r' = sent r
  /\ packetF r' = packetF r /\ ver r' = ver r.
Proof.
  unfold handleLoginSequence, with_handler. intros H.
  destruct pk as [name uid rid | c | c | c | c | rid | id c];
    cbn [resourcePackHandler note_login gameData spawn] in H.
  - injection H as _ <-. repeat split.
  - destruct (OnResourcePacksInfo c (resourcePackHandler r)).
    injection H as _ <-. repeat split.
  - destruct (OnResourcePackDataInfo c (resourcePackHandler r)).
    injection H as _ <-. repeat split.
  - destruct (OnResourcePackChunkData c (resourcePackHandler r)).
    injection H as _ <-. repeat split.
  - destruct (OnResourcePackStack c (resourcePackHandler r)).
    injection H as _ <-. repeat split.
  - destruct (negb (rid =? EntityRuntimeID (gameData r))).
    + injection H as _ <-. repeat split.
    + destruct (close_chan (spawn r)); [| discriminate].
      injection H as _ <-. repeat split.
  - injection H as _ <-. repeat split.
Qed.

Lemma send_packet_trace r pk r' :
  send_packet r pk = Some r' ->
  login_seen r' = login_seen r /\ sent r' = sent r ++ [pk]
  /\ packetF r' = packetF r /\ ver r' = ver r.
Proof.
  unfold send_packet. destruct (packets r); [| discriminate].
  intros H. injection H as <-. repeat split.
Qed.

(** The packets of one frame do not touch the stream. *)
Lemma range_pks_packetF pks : forall r gs r' gs',
  range_pks pks r gs = Next r' gs' -> packetF r' = packetF r /\ ver r' = ver r.
Proof.
  induction pks as [| pk rest IH]; intros r gs r' gs'; cbn [range_pks].
  - intros H. injection H as <- _. split; reflexivity.
  - destruct gs; cbn [negb].
    + destruct (send_packet r pk) as [r1 |] eqn:E; [| discriminate].
      intros H. destruct (IH _ _ _ _ H) as [H1 H2].
      destruct (send_packet_trace _ _ _ E) as (_ & _ & H3 & H4).
      split; congruence.
    + destruct (handleLoginSequence pk r) as [[[started [e |]] r1] |] eqn:E;
        try discriminate.
      intros H. destruct (IH _ _ _ _ H) as [H1 H2].
      destruct (handleLoginSequence_trace _ _ _ _ E) as (_ & _ & H3 & H4).
      split; congruence.
Qed.

(** Whatever every step of [loop] keeps, [loop] keeps. *)
Lemma loop_fuel_preserves (P : replayConnector -> Prop) :
  (forall r s, P r -> P (set_packetF r s)) ->
  (forall r pk res r', P r -> handleLoginSequence pk r = Some (res, r') -> P r') ->
  (forall r pk r', P r -> send_packet r pk = Some r' -> P r') ->
  (forall r e r', P r -> Close r = Some (e, r') -> P r') ->
  forall fuel r gs log r' log',
    P r -> loop_fuel fuel r gs log = Returned r' log' -> P r'.
Proof.
  intros Hread Hlogin Hsend Hclose.
  assert (Hrange : forall pks r gs, P r ->
            match range_pks pks r gs with
            | Next r' _ => P r'
            | Return r' _ => P r'
            | Panics => True
            end).
  { induction pks as [| pk rest IH]; intros r gs HP; cbn [range_pks]; [exact HP |].
    destruct gs; cbn [negb].
    - destruct (send_packet r pk) as [r1 |] eqn:E; [| exact I].
      apply IH. apply (Hsend _ _ _ HP E).
    - destruct (handleLoginSequence pk r) as [[[started [e |]] r1] |] eqn:E;
        [apply (Hlogin _ _ _ _ HP E) | | exact I].
      apply IH. apply (Hlogin _ _ _ _ HP E). }
  assert (HC : forall r l r' l', P r -> deferred_Close r l = Returned r' l' -> P r').
  { intros r l r' l' HP. unfold deferred_Close.
    destruct (Close r) as [[e r1] |] eqn:E; [| discriminate].
    intros H. injection H as <- _. apply (Hclose _ _ _ HP E). }
  induction fuel as [| fuel IH]; intros r gs log r' log' HP; [discriminate |].
  cbn [loop_fuel].
  destruct (readPacket (ver r) (packetF r)) as [[[pl toServer] err] s'].
  specialize (Hread r s' HP).
  destruct pl as [p |]; [| apply HC; exact Hread].
  destruct (if toServer then (LocalAddr, RemoteAddr) else (RemoteAddr, LocalAddr))
    as [src dst].
  destruct (minecraft_ParseData p src dst) as [pkData | e]; [| apply HC; exact Hread].
  destruct (Decode pkData) as [pks | e]; [| apply IH; exact Hread].
  specialize (Hrange pks (set_packetF r s') gs Hread).
  destruct (range_pks pks (set_packetF r s') gs) as [r2 started | r2 e |].
  - apply IH. exact Hrange.
  - apply HC. exact Hrange.
  - discriminate.
Qed.

Lemma loop_fuel_once : forall fuel r gs log r' log',
  loop_fuel fuel r gs log = Returned r' log' -> once r' = true.
Proof.
  assert (HC : forall r l r' l', deferred_Close r l = Returned r' l' -> once r' = true).
  { intros r l r' l'. unfold deferred_Close, Close.
    destruct (once r) eqn:Ho.
    - intros H. injection H as <- _. exact Ho.
    - destruct (close_chan (close r)), (close_chan (packets r)); try discriminate.
      intros H. injection H as <- _. reflexivity. }
  induction fuel as [| fuel IH]; intros r gs log r' log'; [discriminate |].
  cbn [loop_fuel].
  destruct (readPacket (ver r) (packetF r)) as [[[pl toServer] err] s'].
  destruct pl as [p |]; [| apply HC].
  destruct (if toServer then (LocalAddr, RemoteAddr) else (RemoteAddr, LocalAddr))
    as [src dst].
  destruct (minecraft_ParseData p src dst) as [pkData | e]; [| apply HC].
  destruct (Decode pkData) as [pks | e]; [| apply IH].
  destruct (range_pks pks (set_packetF r s') gs) as [r2 started | r2 e |].
  - apply IH.
  - apply HC.
  - discriminate.
Qed.

End LoopMore.

Section LoopResults.
Context {deps : Deps}.

Lemma game_data_of_snoc pre pk :
  game_data_of (pre ++ [pk]) =
    match pk with
    | StartGame name uid rid => mkGameData name uid rid
    | _ => game_data_of pre
    end.
Proof. unfold game_data_of. rewrite fold_left_app. destruct pk; reflexivity. Qed.

(** X6.  When [loop] has returned, the game data of the connector -- what
    [GameData()] returns -- are those of the last [StartGame] packet of
    the login sequence, and the zero value if the login sequence had
    none: no other packet changes them. *)
Theorem loop_game_data (r0 r : replayConnector) (log : list error) :
  just_opened r0 ->
  loop r0 = Returned r log ->
  gameData r = game_data_of (login_seen r).
Proof.
  intros (_ & _ & _ & _ & _ & Hg & Hl) Hloop.
  apply (loop_fuel_preserves (fun r => gameData r = game_data_of (login_seen r)))
    with (6 := Hloop).
  - intros r1 s H. exact H.
  - intros r1 pk res r' H. unfold handleLoginSequence, with_handler.
    destruct pk as [name uid rid | c | c | c | c | rid | id c];
      cbn [resourcePackHandler note_login gameData spawn].
    + intros E. injection E as _ <-. cbn [gameData SetGameData set_resourcePackHandler set_spawn login_seen note_login].
      rewrite game_data_of_snoc. reflexivity.
    + destruct (OnResourcePacksInfo c (resourcePackHandler r1)).
      intros E. injection E as _ <-.
      cbn [gameData SetGameData set_resourcePackHandler set_spawn login_seen note_login]. rewrite game_data_of_snoc. exact H.
    + destruct (OnResourcePackDataInfo c (resourcePackHandler r1)).
      intros E. injection E as _ <-.
      cbn [gameData SetGameData set_resourcePackHandler set_spawn login_seen note_login]. rewrite game_data_of_snoc. exact H.
    + destruct (OnResourcePackChunkData c (resourcePackHandler r1)).
      intros E. injection E as _ <-.
      cbn [gameData SetGameData set_resourcePackHandler set_spawn login_seen note_login]. rewrite game_data_of_snoc. exact H.
    + destruct (OnResourcePackStack c (resourcePackHandler r1)).
      intros E. injection E as _ <-.
      cbn [gameData SetGameData set_resourcePackHandler set_spawn login_seen note_login]. rewrite game_data_of_snoc. exact H.
    + destruct (negb (rid =? EntityRuntimeID (gameData r1))).
      * intros E. injection E as _ <-. cbn [gameData SetGameData set_resourcePackHandler set_spawn login_seen note_login].
        rewrite game_data_of_snoc. exact H.
      * destruct (close_chan (spawn r1)); [| discriminate].
        intros E. injection E as _ <-. cbn [gameData SetGameData set_resourcePackHandler set_spawn login_seen note_login].
        rewrite game_data_of_snoc. exact H.
    + intros E. injection E as _ <-. cbn [gameData SetGameData set_resourcePackHandler set_spawn login_seen note_login].
      rewrite game_data_of_snoc. exact H.
  - intros r1 pk r' H E. unfold send_packet in E.
    destruct (packets r1); [| discriminate]. injection E as <-. exact H.
  - intros r1 e r' H E. unfold Close in E. destruct (once r1).
    + injection E as _ <-. exact H.
    + destruct (close_chan (close r1)), (close_chan (packets r1)); try discriminate.
      injection E as _ <-. exact H.
  - rewrite Hg, Hl. reflexivity.
Qed.

Lemma loop_reachable r0 r log : reachable r0 -> loop r0 = Returned r log -> reachable r.
Proof.
  intros Hr Hloop.
  apply (loop_fuel_preserves reachable) with (6 := Hloop).
  - intros r1 s H. apply reach_read. exact H.
  - intros r1 pk res r' H E. apply (reach_login r1 pk res r' H E).
  - intros r1 pk r' H E. apply (reach_send r1 pk r' H E).
  - intros r1 e r' H E. apply (reach_Close r1 e r' H E).
  - exact Hr.
Qed.

(** X7.  When [loop] has returned -- the log is exhausted, or it gave up
    on an error -- the connection is closed: a [ReadPacket] does not
    block and returns [net.ErrClosed], and no wait for the spawn blocks
    any more, whatever else has been done to the connector. *)
Theorem loop_closes (r0 r : replayConnector) (log : list error) :
  reachable r0 ->
  loop r0 = Returned r log ->
  (forall offered,
     ReadPacket r offered <> []
     /\ forall res, In res (ReadPacket r offered) -> res = (None, Some net_ErrClosed))
  /\ forall ctx_done, DoSpawnContext r ctx_done <> [].
Proof.
  intros Hr Hloop.
  pose proof (reachable_once_guard r (loop_reachable r0 r log Hr Hloop)) as Hg.
  pose proof (loop_fuel_once _ _ _ _ _ _ Hloop) as Ho.
  unfold once_guard in Hg. rewrite Ho in Hg. destruct Hg as [Hc Hp].
  split.
  - intros offered. unfold ReadPacket. rewrite Hc, Hp. split; [discriminate |].
    intros res [<- | [<- | []]]; reflexivity.
  - intros ctx_done. unfold DoSpawnContext. rewrite Hc. discriminate.
Qed.

(** X8.  No packet reaches the consumer before the spawn: if [loop] has
    sent anything on [r.packets], the spawn channel is closed and the
    login sequence ended with a confirmation of the id the game data
    hold. *)
Theorem loop_sends_after_spawn (r0 r : replayConnector) (log : list error) :
  just_opened r0 ->
  loop r0 = Returned r log ->
  sent r <> [] ->
  spawn r = Closed /\ confirmed (login_seen r).
Proof.
  intros Hopen Hloop Hsent.
  destruct (loop_fuel_end (S (length (packetF r0))) r0 false []
              (just_opened_loop_inv r0 Hopen) ltac:(lia))
    as (r' & log' & Hloop' & _ & Hend).
  unfold loop in Hloop. rewrite Hloop' in Hloop. injection Hloop as <- <-.
  destruct Hend as [H | (_ & Hnil & _)]; [exact H | contradiction].
Qed.

Lemma range_pks_trace pks : forall r gs,
  loop_inv r gs ->
  match range_pks pks r gs with
  | Next r' _ => login_seen r' ++ sent r' = (login_seen r ++ sent r) ++ pks
  | Return r' _ =>
      exists handled rest,
        pks = handled ++ rest
        /\ login_seen r' ++ sent r' = (login_seen r ++ sent r) ++ handled
        /\ spawn r' = Open
  | Panics => True
  end.
Proof.
  induction pks as [| pk rest IH]; intros r gs Hinv; cbn [range_pks].
  - rewrite app_nil_r. reflexivity.
  - destruct gs; cbn [negb].
    + destruct (send_packet r pk) as [r1 |] eqn:E; [| exact I].
      destruct (send_packet_trace _ _ _ E) as (H1 & H2 & _).
      assert (Hinv1 : loop_inv r1 true).
      { pose proof (range_pks_inv [pk] r true Hinv) as H.
        cbn [range_pks negb] in H. rewrite E in H. apply H. }
      specialize (IH r1 true Hinv1).
      destruct (range_pks rest r1 true) as [r2 st | r2 e |]; [| | exact I].
      * rewrite IH, H1, H2, <- !app_assoc. reflexivity.
      * destruct IH as (handled & rest' & -> & Heq & Hs).
        exists (pk :: handled), rest'. split; [reflexivity |]. split; [| exact Hs].
        rewrite Heq, H1, H2, <- !app_assoc. reflexivity.
    + destruct (handleLoginSequence_inv pk r Hinv)
        as (started & err & r1 & E & _ & _ & Hres).
      rewrite E.
      destruct (handleLoginSequence_trace _ _ _ _ E) as (H1 & H2 & _).
      destruct Hinv as (_ & _ & _ & _ & Hsent & _).
      destruct err as [e |].
      * exists [pk], rest. split; [reflexivity |]. split.
        -- rewrite H1, H2, Hsent, !app_nil_r. reflexivity.
        -- apply Hres.
      * specialize (IH r1 started Hres).
        destruct (range_pks rest r1 started) as [r2 st | r2 e |]; [| | exact I].
        -- rewrite IH, H1, H2, Hsent, !app_nil_r, <- app_assoc. reflexivity.
        -- destruct IH as (handled & rest' & -> & Heq & Hs).
           exists (pk :: handled), rest'. split; [reflexivity |]. split; [| exact Hs].
           rewrite Heq, H1, H2, Hsent, !app_nil_r, <- app_assoc. reflexivity.
Qed.

Lemma deferred_Close_trace r l r' l' :
  deferred_Close r l = Returned r' l' ->
  login_seen r' = login_seen r /\ sent r' = sent r /\ spawn r' = spawn r.
Proof.
  unfold deferred_Close, Close. destruct (once r).
  - intros H. injection H as <- _. repeat split.
  - destruct (close_chan (close r)), (close_chan (packets r)); try discriminate.
    intros H. injection H as <- _. repeat split.
Qed.

Lemma loop_fuel_trace : forall fuel r gs log r' log',
  loop_inv r gs ->
  loop_fuel fuel r gs log = Returned r' log' ->
  exists handled rest,
    decoded_fuel fuel (ver r) (packetF r) = handled ++ rest
    /\ login_seen r' ++ sent r' = (login_seen r ++ sent r) ++ handled
    /\ (spawn r' = Closed -> rest = []).
Proof.
  induction fuel as [| fuel IH]; intros r gs log r' log' Hinv; [discriminate |].
  cbn [loop_fuel decoded_fuel].
  destruct (readPacket (ver r) (packetF r)) as [[[pl toServer] err] s'].
  pose proof (loop_inv_set_packetF r gs s' Hinv) as Hinv'.
  assert (Hstop : forall l, deferred_Close (set_packetF r s') l = Returned r' log' ->
            exists handled rest,
              @nil Packet = handled ++ rest
              /\ login_seen r' ++ sent r' = (login_seen r ++ sent r) ++ handled
              /\ (spawn r' = Closed -> rest = [])).
  { intros l H. apply deferred_Close_trace in H. destruct H as (H1 & H2 & _).
    exists [], []. split; [reflexivity |]. split; [| reflexivity].
    rewrite H1, H2, app_nil_r. reflexivity. }
  destruct pl as [p |]; [| apply Hstop].
  destruct (if toServer then (LocalAddr, RemoteAddr) else (RemoteAddr, LocalAddr))
    as [src dst].
  destruct (minecraft_ParseData p src dst) as [pkData | e]; [| apply Hstop].
  destruct (Decode pkData) as [pks | e].
  { pose proof (range_pks_inv pks _ gs Hinv') as Hi.
    pose proof (range_pks_trace pks _ gs Hinv') as Ht.
    destruct (range_pks pks (set_packetF r s') gs) as [r1 started | r1 e |] eqn:Er.
    - destruct Hi as (Hi & _). destruct (range_pks_packetF _ _ _ _ _ Er) as [Hp Hv].
      intros H. destruct (IH _ _ _ _ _ Hi H) as (handled & rest & Hd & Heq & Hs).
      rewrite Hp, Hv in Hd. cbn [set_packetF packetF ver] in Hd.
      exists (pks ++ handled), rest.
      split; [rewrite Hd, app_assoc; reflexivity |]. split; [| exact Hs].
      rewrite Heq, Ht. cbn [set_packetF login_seen sent]. rewrite <- !app_assoc. reflexivity.
    - destruct Ht as (handled & rest & -> & Heq & Hs).
      intros H. apply deferred_Close_trace in H. destruct H as (H1 & H2 & H3).
      exists handled, (rest ++ decoded_fuel fuel (ver r) s').
      split; [rewrite app_assoc; reflexivity |]. split.
      + rewrite H1, H2, Heq. reflexivity.
      + rewrite H3, Hs. discriminate.
    - discriminate. }
  intros H. apply (IH _ _ _ _ _ Hinv' H).
Qed.

(** X9.  [loop] neither drops, repeats nor reorders packets: the packets
    of the login sequence followed by the packets handed to the consumer
    are the packets decoded from the log, in the order of the log, up to
    where [loop] stopped; and when the spawn channel has been closed they
    are all of them. *)
Theorem loop_in_order (r0 r : replayConnector) (log : list error) :
  just_opened r0 ->
  loop r0 = Returned r log ->
  exists rest,
    decoded (ver r0) (packetF r0) = login_seen r ++ sent r ++ rest
    /\ (spawn r = Closed -> rest = []).
Proof.
  intros Hopen Hloop.
  destruct (loop_fuel_trace _ _ _ _ _ _ (just_opened_loop_inv r0 Hopen) Hloop)
    as (handled & rest & Hd & Heq & Hs).
  destruct Hopen as (_ & Hsent & _ & _ & _ & _ & Hseen).
  rewrite Hseen, Hsent in Heq. cbn [app] in Heq.
  exists rest. split; [| exact Hs].
  unfold decoded. rewrite Hd, <- Heq, app_assoc. reflexivity.
Qed.

End LoopResults.

(** ** The spawn signal, from the log *)

Section SpawnFacts.
Context {deps : Deps}.

Ltac fields :=
  cbn [ver packetF packets sent spawn close once gameData resourcePackHandler
       login_seen set_packetF SetGameData set_spawn set_resourcePackHandler
       note_login EntityRuntimeID].











(** The first confirmation of a list is where it is. *)
Lemma first_confirmation_unique pre1 id1 post1 pre2 id2 post2 :
  pre1 ++ SetLocalPlayerAsInitialised id1 :: post1 =
    pre2 ++ SetLocalPlayerAsInitialised id2 :: post2 ->
  existsb is_confirmation pre1 = false ->
  existsb is_confirmation pre2 = false ->
  pre1 = pre2 /\ id1 = id2 /\ post1 = post2.
Proof.
  revert pre2. induction pre1 as [| a t IH]; intros [| b u] Heq H1 H2; cbn [app] in Heq.
  - injection Heq as -> ->. repeat split.
  - injection Heq as <- _. cbn in H2. discriminate.
  - injection Heq as -> _. cbn in H1. discriminate.
  - injection Heq as -> Heq. cbn [existsb] in H1, H2.
    apply orb_false_iff in H1, H2.
    destruct (IH u Heq (proj2 H1) (proj2 H2)) as (-> & -> & ->). repeat split.
Qed.

End SpawnFacts.



(** ** [loop] with a consumer that stops receiving *)

Section ConsumerFacts.
Context {deps : Deps}.
Import Consumer.






End ConsumerFacts.


(** The replay of a capture with a matching login and one packet behind
    it, with a consumer that receives nothing: [loop] closes the spawn
    channel and then waits in the send, the connection open. *)
Example loop_waits_for_consumer :
  exists r,
    Consumer.loop_taking (deps := Demo.plain_deps) 0
      (Demo.connector_on Demo.matched_calls) =
      Consumer.Blocked r (OtherPacket 9 [Byte.x01])
    /\ spawn r = Closed /\ close r = Open /\ sent r = [].
Proof. eexists. split; [vm_compute; reflexivity |]. repeat split. Qed.

Lemma loop_game_data_witness :
  gameData Demo.matched_end = game_data_of (login_seen Demo.matched_end).
Proof.
  apply (loop_game_data (deps := Demo.plain_deps)
           (Demo.connector_on Demo.matched_calls) Demo.matched_end []).
  - unfold just_opened. cbn. repeat split; reflexivity.
  - vm_compute. reflexivity.
Defined.

Lemma loop_closes_witness :
  (forall offered,
     ReadPacket Demo.matched_end offered <> []
     /\ forall res, In res (ReadPacket Demo.matched_end offered) ->
                    res = (None, Some net_ErrClosed))
  /\ forall ctx_done, DoSpawnContext Demo.matched_end ctx_done <> [].
Proof.
  apply (loop_closes (deps := Demo.plain_deps)
           (Demo.connector_on Demo.matched_calls) Demo.matched_end []).
  - apply (reach_open (Demo.disk (Demo.capture_file 3 Demo.matched_calls)) "capture.zip").
    reflexivity.
  - vm_compute. reflexivity.
Defined.

Lemma loop_sends_after_spawn_witness :
  spawn Demo.matched_end = Closed /\ confirmed (login_seen Demo.matched_end).
Proof.
  apply (loop_sends_after_spawn (deps := Demo.plain_deps)
           (Demo.connector_on Demo.matched_calls) Demo.matched_end []).
  - unfold just_opened. cbn. repeat split; reflexivity.
  - vm_compute. reflexivity.
  - discriminate.
Defined.

Lemma loop_in_order_witness :
  exists rest,
    decoded (deps := Demo.plain_deps) (ver (Demo.connector_on Demo.matched_calls))
      (packetF (Demo.connector_on Demo.matched_calls)) =
      login_seen Demo.matched_end ++ sent Demo.matched_end ++ rest
    /\ (spawn Demo.matched_end = Closed -> rest = []).
Proof.
  apply (loop_in_order (deps := Demo.plain_deps)
           (Demo.connector_on Demo.matched_calls) Demo.matched_end []).
  - unfold just_opened. cbn. repeat split; reflexivity.
  - vm_compute. reflexivity.
Defined.

(** X10.  Closing a connector that has not spawned makes every wait for
    the spawn return, and with an error: [Close] leaves the spawn channel
    as it is, so that [DoSpawnContext] has the closed connection as its
    only ready case besides a finished context. *)
Theorem Close_fails_spawn_wait {deps : Deps} (r r1 : replayConnector)
  (err : option error) :
  reachable r ->
  spawn r = Open ->
  Close r = Some (err, r1) ->
  forall ctx_done,
    DoSpawnContext r1 ctx_done <> []
    /\ forall res, In res (DoSpawnContext r1 ctx_done) ->
                   res = Some (errors_New "do spawn").
Proof.
  intros Hr Hs HC ctx_done.
  destruct (Close_first r (reachable_once_guard r Hr))
    as (r' & HC' & _ & Hc & _ & Hs' & _).
  rewrite HC' in HC. injection HC as _ <-.
  unfold DoSpawnContext. rewrite Hc, Hs', Hs. split; [discriminate |].
  destruct ctx_done; cbn; intros res Hin;
    repeat (destruct Hin as [<- | Hin]; [reflexivity |]); contradiction.
Qed.

Lemma Close_fails_spawn_wait_witness :
  DoSpawnContext
    (mkConn (deps := Demo.plain_deps)
       3 [] Closed [] Open Closed true zero_GameData tt []) false <> []
  /\ forall res,
       In res (DoSpawnContext
                 (mkConn (deps := Demo.plain_deps)
                    3 [] Closed [] Open Closed true zero_GameData tt [])
                 false) ->
       res = Some (errors_New "do spawn").
Proof.
  refine (Close_fails_spawn_wait (deps := Demo.plain_deps) (Demo.connector_on [])
            (mkConn (deps := Demo.plain_deps) 3 [] Closed [] Open Closed true
               zero_GameData tt []) None _ _ _ false).
  - apply (reach_open (Demo.disk (Demo.capture_file 3 [])) "capture.zip"). reflexivity.
  - reflexivity.
  - reflexivity.
Defined.

(** * More of reading a log and of opening a capture *)

Section ReadFramesMore.

Lemma read_frames_fuel_stable ver : forall fuel1 fuel2 s,
  (length s < fuel1)%nat -> (length s < fuel2)%nat ->
  read_frames_fuel fuel1 ver s = read_frames_fuel fuel2 ver s.
Proof.
  induction fuel1 as [| fuel1 IH]; intros fuel2 s H1 H2; [lia |].
  destruct fuel2 as [| fuel2]; [lia |].
  cbn [read_frames_fuel].
  destruct (readPacket ver s) as [[[pl d] e] s'] eqn:E.
  destruct pl as [p |]; [| reflexivity].
  apply readPacket_consumes in E.
  rewrite (IH fuel2 s') by lia. reflexivity.
Qed.

Lemma read_frames_step ver now d p rest :
  2 <= ver ->
  Z.of_nat (length p) < 2 ^ 32 ->
  read_frames ver (wire_frame now d p ++ rest) =
    match read_frames ver rest with
    | Some (frames, e) => Some ((d, p) :: frames, e)
    | None => None
    end.
Proof.
  intros Hv Hp. unfold read_frames at 1. cbn [read_frames_fuel].
  rewrite readPacket_wire_frame by assumption.
  rewrite (read_frames_fuel_stable ver _ (S (length rest)) rest);
    [reflexivity | | lia].
  rewrite length_app. pose proof (wire_frame_length now d p). lia.
Qed.

End ReadFramesMore.

(** X11.  Whatever follows the frames of a capture -- a frame cut short,
    other bytes, nothing -- the frames before it are read back whole and
    in order, and the reading then goes on with what follows: a bad tail
    costs the frames behind it, never the frames in front of it. *)
Theorem read_frames_before_tail (calls : list Call) (tail : list byte) :
  Forall fits_u32 calls ->
  read_frames currentReplayVersion (capture calls ++ tail) =
    match read_frames currentReplayVersion tail with
    | Some (frames, e) => Some (map pair_of calls ++ frames, e)
    | None => None
    end.
Proof.
  induction 1 as [| c rest Hc _ IH].
  - change (capture []) with (@nil byte). cbn [app map].
    destruct (read_frames currentReplayVersion tail) as [[frames e] |]; reflexivity.
  - rewrite capture_cons, <- app_assoc.
    rewrite read_frames_step by (unfold currentReplayVersion; lia || exact Hc).
    rewrite IH.
    destruct (read_frames currentReplayVersion tail) as [[frames e] |]; reflexivity.
Qed.

Lemma read_frames_before_tail_witness :
  read_frames currentReplayVersion
    (capture [mkCall 1 true [Byte.x68]; mkCall 2 false []]
       ++ [Byte.xaa; Byte.xaa; Byte.xaa; Byte.xaa; Byte.x09]) =
    match read_frames currentReplayVersion
            [Byte.xaa; Byte.xaa; Byte.xaa; Byte.xaa; Byte.x09] with
    | Some (frames, e) =>
        Some (map pair_of [mkCall 1 true [Byte.x68]; mkCall 2 false []] ++ frames, e)
    | None => None
    end.
Proof.
  apply (read_frames_before_tail [mkCall 1 true [Byte.x68]; mkCall 2 false []]
           [Byte.xaa; Byte.xaa; Byte.xaa; Byte.xaa; Byte.x09]).
  repeat constructor; unfold fits_u32; cbn [payload length]; lia.
Defined.

(** X12.  A [version] entry of fewer than four bytes is taken for
    version 0: the error of reading it is dropped, [r.ver] keeps its zero
    value, and the container is refused with "wrong version". *)
Theorem createReplayConnector_short_version {deps : Deps}
  (fsys : FileSystem) (filename : string) (f : File) (z : zip_Reader)
  (vf : list byte) :
  fsys filename = Some f ->
  archive f = inl z ->
  zip_Open z "version" = inl vf ->
  (length vf < 4)%nat ->
  createReplayConnector fsys filename = (None, Some (errors_New "wrong version")).
Proof.
  intros Hf Hz Hv Hl. unfold createReplayConnector, os_Open. rewrite Hf, Hz, Hv.
  unfold binary_Read_uint32, bind. rewrite io_ReadFull_short by exact Hl.
  reflexivity.
Qed.

Lemma createReplayConnector_short_version_witness :
  createReplayConnector (deps := Demo.plain_deps)
    (Demo.disk (mkFile Demo.zip_signature
                  (inl [("version"%string, [Byte.x03; Byte.x00]);
                        ("packets.bin"%string, [])]))) "capture.zip" =
    (None, Some (errors_New "wrong version")).
Proof.
  apply (createReplayConnector_short_version (deps := Demo.plain_deps)
           (Demo.disk (mkFile Demo.zip_signature
                         (inl [("version"%string, [Byte.x03; Byte.x00]);
                               ("packets.bin"%string, [])]))) "capture.zip"
           (mkFile Demo.zip_signature
              (inl [("version"%string, [Byte.x03; Byte.x00]);
                    ("packets.bin"%string, [])]))
           [("version"%string, [Byte.x03; Byte.x00]); ("packets.bin"%string, [])]
           [Byte.x03; Byte.x00]).
  - reflexivity.
  - reflexivity.
  - reflexivity.
  - cbn [length]. lia.
Defined.

(** X13.  Opening and reading compose: a zip archive whose [version]
    entry declares 3, whose packs load and whose [packets.bin] holds the
    frames [dumpPacket] wrote for some calls (payloads shorter than 2^32
    bytes) is opened, and the frames the connector then reads are these
    calls, in order, to a clean end. *)
Theorem open_then_read {deps : Deps} (fsys : FileSystem) (filename : string)
  (f : File) (z : zip_Reader) (calls : list Call) :
  fsys filename = Some f ->
  archive f = inl z ->
  declared_version z = Some 3 ->
  fst (replayCache_ReadFrom z NewRpHandler) = None ->
  zip_Open z "packets.bin" = inl (capture calls) ->
  Forall fits_u32 calls ->
  exists r,
    createReplayConnector fsys filename = (Some r, None)
    /\ read_frames (ver r) (packetF r) = Some (map pair_of calls, None).
Proof.
  intros Hf Hz Hv Hc Hp Hfit.
  destruct (replayCache_ReadFrom z NewRpHandler) as [e h] eqn:Hcache.
  cbn [fst] in Hc. subst e.
  exists (mkConn 3 (capture calls) Open [] Open Open false zero_GameData h []).
  split.
  - apply (proj2 (createReplayConnector_outcome fsys filename)).
    exists f, z, (capture calls), h. repeat split; assumption.
  - cbn [ver packetF]. unfold read_frames. apply read_frames_fuel_capture.
    + lia.
    + exact Hfit.
    + pose proof (capture_length calls). lia.
Qed.

Lemma open_then_read_witness :
  exists r,
    createReplayConnector (deps := Demo.plain_deps)
      (Demo.disk (Demo.capture_file 3 Demo.matched_calls)) "capture.zip" = (Some r, None)
    /\ read_frames (ver r) (packetF r) = Some (map pair_of Demo.matched_calls, None).
Proof.
  apply (open_then_read (deps := Demo.plain_deps)
           (Demo.disk (Demo.capture_file 3 Demo.matched_calls)) "capture.zip"
           (Demo.capture_file 3 Demo.matched_calls)
           [("version"%string, le_split 4 3);
            ("packets.bin"%string, capture Demo.matched_calls)]
           Demo.matched_calls).
  - reflexivity.
  - reflexivity.
  - reflexivity.
  - reflexivity.
  - reflexivity.
  - repeat constructor; unfold fits_u32; cbn [payload length]; lia.
Defined.

(** X14.  [loop] does not outlive a [Close] from outside: when the
    connection has been closed while [loop] still has a packet to hand
    on after the login, the send on the closed channel [r.packets]
    panics. *)
Theorem loop_panics_after_Close {deps : Deps} (r r1 : replayConnector)
  (err : option error) (fuel : nat) (log : list error)
  (p : list byte) (toServer : bool) (e : option error) (s' : Reader)
  (pkData : packetData) (pk : Packet) (pks : list Packet) :
  reachable r ->
  Close r = Some (err, r1) ->
  readPacket (ver r1) (packetF r1) = ((Some p, toServer, e), s') ->
  minecraft_ParseData p (if toServer then LocalAddr else RemoteAddr)
    (if toServer then RemoteAddr else LocalAddr) = inl pkData ->
  Decode pkData = inl (pk :: pks) ->
  loop_fuel (S fuel) r1 true log = Panicked.
Proof.
  intros Hr HC Hread Hparse Hdec.
  destruct (Close_first r (reachable_once_guard r Hr)) as (r' & HC' & _ & _ & Hp & _).
  rewrite HC' in HC. injection HC as _ <-.
  cbn [loop_fuel]. rewrite Hread.
  destruct toServer; rewrite Hparse, Hdec; cbn [range_pks negb];
    unfold send_packet; cbn [packets set_packetF]; rewrite Hp; reflexivity.
Qed.

Lemma loop_panics_after_Close_witness :
  loop_fuel (deps := Demo.plain_deps) 1
    (mkConn (deps := Demo.plain_deps) 3
       (capture [mkCall 2 false [Byte.x09; Byte.x01]])
       Closed [] Closed Closed true zero_GameData tt
       [SetLocalPlayerAsInitialised 0]) true [] = Panicked.
Proof.
  apply (loop_panics_after_Close (deps := Demo.plain_deps)
           (mkConn (deps := Demo.plain_deps) 3
              (capture [mkCall 2 false [Byte.x09; Byte.x01]])
              Open [] Closed Open false zero_GameData tt
              [SetLocalPlayerAsInitialised 0])
           _ None 0 [] [Byte.x09; Byte.x01] false None []
           [OtherPacket 9 [Byte.x01]] (OtherPacket 9 [Byte.x01]) []).
  - apply (reach_login (Demo.connector_on [mkCall 2 false [Byte.x09; Byte.x01]])
             (SetLocalPlayerAsInitialised 0) (true, None)).
    + apply (reach_open
               (Demo.disk (Demo.capture_file 3 [mkCall 2 false [Byte.x09; Byte.x01]]))
               "capture.zip").
      reflexivity.
    + reflexivity.
  - reflexivity.
  - vm_compute. reflexivity.
  - reflexivity.
  - reflexivity.
Defined.

(** * More of the producers under [dumpLock] *)

Section LockMore.

Lemma written_at_prefix l now c :
  exists rest, written_at l now c ++ rest = wire_frame now (fst c) (snd c).
Proof.
  destruct c as [d p]. unfold wire_frame. cbn [fst snd].
  change (le_split 4 2863311530) with leading_magic.
  change (le_split 4 3149642683) with trailing_magic.
  destruct l; cbn [written_at fst snd]; eexists; rewrite <- ?app_assoc;
    reflexivity.
Qed.

End LockMore.

(** X15.  Mutual exclusion: however the producers have been scheduled, at
    most one of them is inside [dumpPacket], and [dumpLock] is held
    exactly when one is. *)
Theorem dumpLock_exclusion (programs : list (list (bool * list byte)))
  (schedule : list (nat * Z)) (s : System) :
  run schedule (start programs) = Some s ->
  (forall i j p q,
     nth_error (producers s) i = Some p -> nth_error (producers s) j = Some q ->
     pc p <> Idle -> pc q <> Idle -> i = j)
  /\ (dumpLock s = true <->
      exists i p, nth_error (producers s) i = Some p /\ pc p <> Idle).
Proof.
  intros Hrun.
  destruct (run_lock_inv programs schedule _ [] s (start_lock_inv programs) Hrun)
    as (order & _ & _ & _ & _ & Hlock).
  destruct (dumpLock s).
  - destruct Hlock as (i0 & p0 & now & c & rest & Hp0 & _ & Hpc & _ & _ & Hidle).
    split.
    + intros i j p q Hp Hq Hnp Hnq.
      destruct (Nat.eq_dec i i0) as [-> | Hi].
      * destruct (Nat.eq_dec j i0) as [-> | Hj]; [reflexivity |].
        exfalso. apply Hnq. apply (Hidle j q Hj Hq).
      * exfalso. apply Hnp. apply (Hidle i p Hi Hp).
    + split; [| reflexivity]. intros _. exists i0, p0. split; assumption.
  - destruct Hlock as (_ & Hidle). split.
    + intros i j p q Hp _ Hnp _. exfalso. apply Hnp. apply (Hidle i p Hp).
    + split; [discriminate |]. intros (i & p & Hp & Hnp).
      exfalso. apply Hnp. apply (Hidle i p Hp).
Qed.

Lemma dumpLock_exclusion_witness :
  (forall i j p q,
     nth_error (producers two_by_two_mid) i = Some p ->
     nth_error (producers two_by_two_mid) j = Some q ->
     pc p <> Idle -> pc q <> Idle -> i = j)
  /\ (dumpLock two_by_two_mid = true <->
      exists i p, nth_error (producers two_by_two_mid) i = Some p /\ pc p <> Idle).
Proof.
  apply (dumpLock_exclusion two_by_two two_by_two_mid_schedule two_by_two_mid).
  vm_compute. reflexivity.
Defined.

(** X16.  At every moment the stream holds whole frames followed by the
    first bytes of at most one more frame.  The whole frames are one for
    each call that is over and no others: the calls of each producer's
    program that are not among those it still has to make, in the order
    of its program.  The bytes behind them are those the producer that
    holds [dumpLock] has written so far of the frame of its current
    call; when the lock is free there are none. *)
Theorem stream_whole_frames (programs : list (list (bool * list byte)))
  (schedule : list (nat * Z)) (s : System) :
  run schedule (start programs) = Some s ->
  exists (order : list (nat * Call)) (partial : list byte),
    out (stream s) =
      concat (map (fun x => wire_frame (at_ms (snd x)) (toServer (snd x))
                              (payload (snd x))) order) ++ partial
    /\ (forall i p, nth_error (producers s) i = Some p ->
                    nth_error programs i = Some (calls_of i order ++ todo p))
    /\ (forall x, In x order -> (fst x < length programs)%nat)
    /\ if dumpLock s
       then exists i p c rest now more,
              nth_error (producers s) i = Some p
              /\ todo p = c :: rest
              /\ pc p <> Idle
              /\ partial ++ more = wire_frame now (fst c) (snd c)
       else partial = [].
Proof.
  intros Hrun.
  destruct (run_lock_inv programs schedule _ [] s (start_lock_inv programs) Hrun)
    as (order & _ & _ & Hcalls & Hbound & Hlock).
  destruct (dumpLock s).
  - destruct Hlock as (i0 & p0 & now & c & rest & Hp0 & Htodo & Hpc & _ & Hout & _).
    exists order, (written_at (pc p0) now c).
    split; [rewrite Hout, capture_frames, map_map; reflexivity |].
    split; [exact Hcalls |]. split; [exact Hbound |].
    destruct (written_at_prefix (pc p0) now c) as (more & Hmore).
    exists i0, p0, c, rest, now, more. repeat split; assumption.
  - destruct Hlock as (Hout & _).
    exists order, [].
    split; [rewrite Hout, capture_frames, map_map, app_nil_r; reflexivity |].
    split; [exact Hcalls |]. split; [exact Hbound |]. reflexivity.
Qed.

Lemma stream_whole_frames_witness :
  exists (order : list (nat * Call)) (partial : list byte),
    out (stream two_by_two_mid) =
      concat (map (fun x => wire_frame (at_ms (snd x)) (toServer (snd x))
                              (payload (snd x))) order) ++ partial
    /\ (forall i p, nth_error (producers two_by_two_mid) i = Some p ->
                    nth_error two_by_two i = Some (calls_of i order ++ todo p))
    /\ (forall x, In x order -> (fst x < length two_by_two)%nat)
    /\ if dumpLock two_by_two_mid
       then exists i p c rest now more,
              nth_error (producers two_by_two_mid) i = Some p
              /\ todo p = c :: rest
              /\ pc p <> Idle
              /\ partial ++ more = wire_frame now (fst c) (snd c)
       else partial = [].
Proof.
  apply (stream_whole_frames two_by_two two_by_two_mid_schedule two_by_two_mid).
  vm_compute. reflexivity.
Defined.

(** X17.  [dumpLock] never leaves the producers stuck: as long as one of
    them has a call left, there is a producer that can run its next
    statement, whatever the clock reads. *)
Theorem dumpLock_never_stuck (programs : list (list (bool * list byte)))
  (schedule : list (nat * Z)) (s : System) :
  run schedule (start programs) = Some s ->
  finished s = false ->
  exists i, forall now, step i now s <> None.
Proof. apply producers_never_stuck. Qed.

Lemma dumpLock_never_stuck_witness :
  exists i, forall now, step i now two_by_two_mid <> None.
Proof.
  apply (dumpLock_never_stuck two_by_two two_by_two_mid_schedule two_by_two_mid).
  - vm_compute. reflexivity.
  - vm_compute. reflexivity.
Defined.

(** ** The capture command *)

Section CaptureCmdFacts.
Import CaptureCmd.

(** The callback is [dumpPacket] on the call it builds. *)
Lemma PacketFuncs_dumpPackets client pkts : forall w,
  PacketFuncs client pkts w = dumpPackets (map (call_of client) pkts) w.
Proof.
  induction pkts as [| i rest IH]; intros w; cbn [PacketFuncs map dumpPackets].
  - reflexivity.
  - unfold bind. unfold PacketFunc, call_of at 1 2 3. cbn [at_ms toServer payload].
    destruct (dumpPacket _ _ _ w) as [l1 w1]. rewrite IH. reflexivity.
Qed.

Lemma read_frames_capture calls :
  Forall fits_u32 calls ->
  read_frames currentReplayVersion (capture calls) = Some (map pair_of calls, None).
Proof.
  intros Hfit. unfold read_frames. apply read_frames_fuel_capture.
  - unfold currentReplayVersion. lia.
  - exact Hfit.
  - pose proof (capture_length calls). lia.
Qed.

Lemma WriteReplayHeader_whole o :
  WriteReplayHeader (mkWriter o []) =
    (tt, mkWriter (o ++ replayMagic ++ le_split 4 currentReplayVersion) []).
Proof.
  unfold WriteReplayHeader, bind, ret. rewrite !io_Write_whole, <- app_assoc.
  reflexivity.
Qed.

End CaptureCmdFacts.

(** X18.  On a stream that accepts every write, whatever it already
    holds, the packet callback of the capture command logs nothing and
    appends bytes that [readPacket] at the current version reads back as
    one frame a packet, in the order of the calls: the direction is
    whether the source address is the client's local address, the
    payload is the packet header followed by the packet payload.  Each
    header and payload together are shorter than 2^32 bytes. *)
Theorem PacketFunc_frames (client : string) (pkts : list CaptureCmd.Intercepted)
  (o : list byte) :
  Forall (fun i => Z.of_nat (length (CaptureCmd.header i ++ CaptureCmd.body i)) < 2 ^ 32)
    pkts ->
  exists frames,
    CaptureCmd.PacketFuncs client pkts (mkWriter o []) = ([], mkWriter (o ++ frames) [])
    /\ read_frames currentReplayVersion frames =
         Some (map (fun i => (String.eqb (CaptureCmd.src i) client,
                              CaptureCmd.header i ++ CaptureCmd.body i)) pkts, None).
Proof.
  intros Hfit. exists (capture (map (CaptureCmd.call_of client) pkts)). split.
  - rewrite PacketFuncs_dumpPackets, dumpPackets_whole, capture_frames. reflexivity.
  - rewrite read_frames_capture.
    + rewrite map_map. reflexivity.
    + apply Forall_map. exact Hfit.
Qed.

Lemma PacketFunc_frames_witness :
  exists frames,
    CaptureCmd.PacketFuncs "10.0.0.2:50000"
      [CaptureCmd.mkIntercepted 5 [Byte.x01] [Byte.x68; Byte.x69] "10.0.0.2:50000";
       CaptureCmd.mkIntercepted 6 [Byte.x02] [] "203.0.113.7:19132"]
      (mkWriter [Byte.x42] []) = ([], mkWriter ([Byte.x42] ++ frames) [])
    /\ read_frames currentReplayVersion frames =
         Some (map (fun i => (String.eqb (CaptureCmd.src i) "10.0.0.2:50000",
                              CaptureCmd.header i ++ CaptureCmd.body i))
                 [CaptureCmd.mkIntercepted 5 [Byte.x01] [Byte.x68; Byte.x69]
                    "10.0.0.2:50000";
                  CaptureCmd.mkIntercepted 6 [Byte.x02] [] "203.0.113.7:19132"], None).
Proof.
  apply (PacketFunc_frames "10.0.0.2:50000"
           [CaptureCmd.mkIntercepted 5 [Byte.x01] [Byte.x68; Byte.x69] "10.0.0.2:50000";
            CaptureCmd.mkIntercepted 6 [Byte.x02] [] "203.0.113.7:19132"]
           [Byte.x42]).
  repeat constructor; cbn; lia.
Defined.

(** X19.  The file of a capture session on a stream that accepts every
    write is the four bytes of [replayMagic], the version 3 as four
    little-endian bytes, and then the frames of the packets, which
    [readPacket] reads back from the ninth byte on; read from the first
    byte, the file is refused with the error "wrong Magic". *)
Theorem session_layout (client : string) (pkts : list CaptureCmd.Intercepted) :
  Forall (fun i => Z.of_nat (length (CaptureCmd.header i ++ CaptureCmd.body i)) < 2 ^ 32)
    pkts ->
  exists frames,
    CaptureCmd.session client pkts fresh =
      ([], mkWriter (replayMagic ++ le_split 4 currentReplayVersion ++ frames) [])
    /\ read_frames currentReplayVersion frames =
         Some (map (fun i => (String.eqb (CaptureCmd.src i) client,
                              CaptureCmd.header i ++ CaptureCmd.body i)) pkts, None)
    /\ fst (readPacket currentReplayVersion
              (replayMagic ++ le_split 4 currentReplayVersion ++ frames)) =
         (None, false, Some (errors_New "wrong Magic")).
Proof.
  intros Hfit. exists (capture (map (CaptureCmd.call_of client) pkts)).
  split; [| split].
  - unfold CaptureCmd.session, bind, fresh. rewrite WriteReplayHeader_whole.
    rewrite PacketFuncs_dumpPackets, dumpPackets_whole, capture_frames.
    cbn [app]. rewrite <- !app_assoc. reflexivity.
  - rewrite read_frames_capture.
    + rewrite map_map. reflexivity.
    + apply Forall_map. exact Hfit.
  - unfold readPacket. unfold bind at 1.
    rewrite binary_Read_uint32_app by reflexivity. reflexivity.
Qed.

Lemma session_layout_witness :
  exists frames,
    CaptureCmd.session "10.0.0.2:50000"
      [CaptureCmd.mkIntercepted 5 [Byte.x01] [Byte.x68; Byte.x69] "10.0.0.2:50000"]
      fresh =
      ([], mkWriter (replayMagic ++ le_split 4 currentReplayVersion ++ frames) [])
    /\ read_frames currentReplayVersion frames =
         Some (map (fun i => (String.eqb (CaptureCmd.src i) "10.0.0.2:50000",
                              CaptureCmd.header i ++ CaptureCmd.body i))
                 [CaptureCmd.mkIntercepted 5 [Byte.x01] [Byte.x68; Byte.x69]
                    "10.0.0.2:50000"], None)
    /\ fst (readPacket currentReplayVersion
              (replayMagic ++ le_split 4 currentReplayVersion ++ frames)) =
         (None, false, Some (errors_New "wrong Magic")).
Proof.
  apply (session_layout "10.0.0.2:50000"
           [CaptureCmd.mkIntercepted 5 [Byte.x01] [Byte.x68; Byte.x69] "10.0.0.2:50000"]).
  repeat constructor; cbn; lia.
Defined.

(** ** Resource packs *)

Section PackFacts.
Import Packs.

Lemma ReadAt_end (pack : Pack) (n : nat) :
  ReadAt pack n (Z.of_nat (length (content pack))) = ([], Some io_EOF).
Proof.
  unfold ReadAt.
  destruct (Z.ltb_spec (Z.of_nat (length (content pack))) 0) as [H | _]; [lia |].
  destruct (Z.leb_spec (Z.of_nat (length (content pack)))
              (Z.of_nat (length (content pack)))) as [_ | H]; [reflexivity | lia].
Qed.

Lemma ReadAt_whole (pack : Pack) :
  content pack <> [] ->
  ReadAt pack (length (content pack)) (Z.of_nat 0) = (content pack, None).
Proof.
  intros Hne. unfold ReadAt. cbn [Z.of_nat Z.ltb Z.compare Z.to_nat skipn].
  destruct (content pack) as [| b rest] eqn:E; [congruence |].
  destruct (Z.leb_spec (Z.of_nat (length (b :: rest))) 0) as [H | _];
    [cbn [length] in H; lia |].
  rewrite firstn_all, Nat.ltb_irrefl. reflexivity.
Qed.

Lemma GetPacks_from_stock FromBytes packs : forall acc,
  GetPacks_from of_Packb FromBytes acc packs = (acc ++ map of_Packb packs, None).
Proof.
  induction packs as [| pack rest IH]; intros acc; cbn [GetPacks_from map].
  - rewrite app_nil_r. reflexivity.
  - cbn [of_Packb PackI_CanDecrypt]. rewrite andb_false_r, IH, <- app_assoc.
    reflexivity.
Qed.

Lemma GetPacks_from_all_or_nothing PackFromBase FromBytes packs : forall acc res err,
  GetPacks_from PackFromBase FromBytes acc packs = (res, err) ->
  match err with
  | None => length res = (length acc + length packs)%nat
  | Some _ => res = []
  end.
Proof.
  induction packs as [| pack rest IH]; intros acc res err H; cbn [GetPacks_from] in H.
  - inversion H; subst. cbn [length]. lia.
  - destruct (Encrypted (PackFromBase pack) && PackI_CanDecrypt (PackFromBase pack)).
    + destruct (Decrypt (PackFromBase pack)) as [data | e].
      * destruct (FromBytes data) as [pack2 | e].
        -- apply IH in H. destruct err; [exact H |].
           rewrite H, length_app. cbn [length]. lia.
        -- inversion H; subst. reflexivity.
      * inversion H; subst. reflexivity.
    + apply IH in H. destruct err; [exact H |].
      rewrite H, length_app. cbn [length]. lia.
Qed.

End PackFacts.

(** X20.  [ReadAll] returns the whole content of the pack and no error,
    for every pack, the empty one included, and its loop ends after at
    most two calls of [ReadAt]: the first fills the buffer, the second
    reports the end. *)
Theorem ReadAll_content (fuel : nat) (p : Packs.Packb) :
  Packs.ReadAll (S (S fuel)) p = Some (Some (Packs.content (Packs.base p)), None).
Proof.
  unfold Packs.ReadAll, Packs.Len.
  destruct (Packs.content (Packs.base p)) as [| b rest] eqn:E.
  - cbn [length repeat Packs.ReadAll_from Nat.sub].
    pose proof (ReadAt_end (Packs.base p) 0) as H. rewrite E in H.
    cbn [length] in H. rewrite H. reflexivity.
  - remember (S fuel) as fuel1. cbn [Packs.ReadAll_from].
    rewrite repeat_length, Nat.sub_0_r, <- E.
    rewrite ReadAt_whole by (rewrite E; discriminate).
    cbn [firstn app Nat.add].
    rewrite (skipn_all2 (repeat Byte.x00 (length (Packs.content (Packs.base p)))))
      by (rewrite repeat_length; lia).
    rewrite app_nil_r. subst fuel1. cbn [Packs.ReadAll_from].
    rewrite Nat.sub_diag, ReadAt_end, Nat.add_0_r.
    cbn [app]. rewrite firstn_skipn. reflexivity.
Qed.

(** X21.  When [FS] returns a reader, the names it returns are the names
    of the entries of the archive that are not directories, each as
    often as the archive has it, in ascending order; the error is the
    one [zip.NewReader] gave. *)
Theorem FS_names (zip_NewReader : list byte -> nat -> Packs.zip_result)
  (p : Packs.Packb) (files : list (string * bool)) (names : list string)
  (err : option error) :
  Packs.FS zip_NewReader p = Some (Some files, names, err) ->
  Sorted (fun a b => String.leb a b = true) names
  /\ Permutation (map fst (filter (fun f => negb (snd f)) files)) names
  /\ zip_NewReader (Packs.content (Packs.base p)) (Packs.Len (Packs.base p)) =
       Packs.zip_reader files err.
Proof.
  unfold Packs.FS. intros H.
  destruct (Packs.encrypted (Packs.base p) && negb (Packs.d p)); [discriminate |].
  destruct (zip_NewReader _ _) as [e | files' err'] eqn:Ez; [discriminate |].
  inversion H; subst. split; [| split].
  - apply (StringSort.Sorted_sort (map fst (filter (fun f => negb (snd f)) files))).
  - apply StringSort.Permuted_sort.
  - reflexivity.
Qed.

Lemma FS_names_witness :
  let files := [("textures/b.png"%string, false); ("textures"%string, true);
                ("manifest.json"%string, false)] in
  let names := ["manifest.json"%string; "textures/b.png"%string] in
  Sorted (fun a b => String.leb a b = true) names
  /\ Permutation (map fst (filter (fun f => negb (snd f)) files)) names
  /\ (fun (_ : list byte) (_ : nat) => Packs.zip_reader files None)
       (Packs.content (Packs.base (Packs.mkPackb (Packs.mkPack [Byte.x50] true) true)))
       (Packs.Len (Packs.base (Packs.mkPackb (Packs.mkPack [Byte.x50] true) true))) =
       Packs.zip_reader files None.
Proof.
  apply (FS_names
           (fun _ _ => Packs.zip_reader
                         [("textures/b.png"%string, false); ("textures"%string, true);
                          ("manifest.json"%string, false)] None)
           (Packs.mkPackb (Packs.mkPack [Byte.x50] true) true)).
  vm_compute. reflexivity.
Defined.

(** X22.  With the [PackFromBase] of the source, which wraps each pack
    in a [Packb], [GetPacks] never fails and never decrypts: whatever
    [resource.FromBytes] would do and whether packs are encrypted or
    not, it returns every pack of the server, wrapped, in the server's
    order. *)
Theorem GetPacks_stock (resource_FromBytes : list byte -> Packs.Pack + error)
  (packs : list Packs.Pack) :
  Packs.GetPacks Packs.of_Packb resource_FromBytes packs =
    (map Packs.of_Packb packs, None).
Proof. unfold Packs.GetPacks. apply GetPacks_from_stock. Qed.

(** X23.  Whatever [PackFromBase] is put in place of the stock one,
    [GetPacks] returns all or nothing: without an error as many packs as
    the server has, with an error a nil slice. *)
Theorem GetPacks_all_or_nothing (PackFromBase : Packs.Pack -> Packs.PackI)
  (resource_FromBytes : list byte -> Packs.Pack + error)
  (packs : list Packs.Pack) (res : list Packs.PackI) (err : option error) :
  Packs.GetPacks PackFromBase resource_FromBytes packs = (res, err) ->
  match err with
  | None => length res = length packs
  | Some _ => res = []
  end.
Proof.
  unfold Packs.GetPacks. intros H.
  apply GetPacks_from_all_or_nothing in H. exact H.
Qed.

Lemma GetPacks_all_or_nothing_witness :
  fst (Packs.GetPacks
         (fun pack => Packs.mkPackI true true (inr (errors_New "bad key")) pack)
         (fun _ => inr zip_ErrFormat)
         [Packs.mkPack [Byte.x50] false; Packs.mkPack [Byte.x51] true]) = [].
Proof.
  apply (GetPacks_all_or_nothing
           (fun pack => Packs.mkPackI true true (inr (errors_New "bad key")) pack)
           (fun _ => inr zip_ErrFormat)
           [Packs.mkPack [Byte.x50] false; Packs.mkPack [Byte.x51] true]
           _ (Some (errors_New "bad key"))).
  reflexivity.
Defined.

(** ** The command [create-customdata] *)

(** X24.  [create-customdata] exits with status 0 exactly when the file
    could be created and the data could be marshalled, and with status 1
    otherwise; what [Write] does with the data has no part in it, so
    that the status is 0 also when the file got only a part of the data.
    The file gets a leading part of the data and nothing else. *)
Theorem CreateCustomData_status (created : option error)
  (marshal : list byte * option error) (w : Writer) :
  (fst (CustomData.Execute created marshal w) = 0 <->
     created = None /\ snd marshal = None)
  /\ (fst (CustomData.Execute created marshal w) = 0
      \/ fst (CustomData.Execute created marshal w) = 1)
  /\ exists k, out (snd (CustomData.Execute created marshal w)) =
                out w ++ firstn k (fst marshal).
Proof.
  destruct marshal as [bdata err]. unfold CustomData.Execute.
  destruct created as [e |].
  - cbn. split; [| split].
    + split; [discriminate | intros [H _]; discriminate].
    + right. reflexivity.
    + exists 0%nat. rewrite app_nil_r. reflexivity.
  - unfold bind, ret.
    assert (Hout : exists k, out (snd (io_Write bdata w)) = out w ++ firstn k bdata).
    { unfold io_Write. destruct (faults w) as [| [k |] fs]; cbn [snd out].
      - exists (length bdata). rewrite firstn_all. reflexivity.
      - exists (Nat.min k (length bdata)). reflexivity.
      - exists (length bdata). rewrite firstn_all. reflexivity. }
    destruct (io_Write bdata w) as [r w1]. cbn [snd fst] in *.
    destruct err as [e |]; cbn [fst snd]; (split; [| split]).
    + split; [discriminate | intros [_ H]; discriminate].
    + right. reflexivity.
    + exact Hout.
    + split; [intros _; split; reflexivity | reflexivity].
    + left. reflexivity.
    + exact Hout.
Qed.
